(** * Metrics aggregation agent: counters, gauges, key codec, scopes

    A shallow embedding of [internal/agent] (stats.go, keymap.go and the
    scope implementation) together with the properties stated for it.

    Conventions.
    - An [int64] is a [Z] with its two's-complement wrap-around written
      out ([wrap64]); a [uint64] is a [Z] as well.
    - A Go [string] is a [string] (a sequence of bytes); Go's [<] on
      strings is the byte-wise lexicographic order, [String.le].
    - A Go [map[string]T] is a [gmap string T]; a [nil] map and an empty
      map are not told apart where the code only reads them.
    - A [float64] is represented by its IEEE-754 bit pattern: the code
      only moves floats around through [math.Float64bits] and
      [math.Float64frombits], it never computes with them. *)

From Stdlib Require Import ZArith Lia Ascii.
From stdpp Require Import base tactics option list sorting gmap strings fin_maps.

Local Open Scope Z_scope.

(** ** 64-bit integers *)

Module Int64.

Definition modulus : Z := 2 ^ 64.
Definition half_modulus : Z := 2 ^ 63.

(** The value an [int64] holds after a computation whose mathematical
    result is [z]. *)
Definition wrap64 (z : Z) : Z := (z + half_modulus) mod modulus - half_modulus.

Definition add64 (a b : Z) : Z := wrap64 (a + b).
Definition sub64 (a b : Z) : Z := wrap64 (a - b).

Definition in_int64 (z : Z) : Prop := - half_modulus <= z < half_modulus.

(** The sum of a list of deltas, as an [int64] accumulator computes it. *)
Definition sum64 (ds : list Z) : Z := fold_left add64 ds 0.

(** The mathematical sum. *)
Definition sumZ (ds : list Z) : Z := fold_right Z.add 0 ds.

End Int64.

(** ** Calls received by the injected [StatsReporter] *)

Inductive call : Type :=
  | ReportCounter (name : string) (tags : gmap string string) (value : Z)
  | ReportGauge (name : string) (tags : gmap string string) (value : Z)
  | Flush
  | CloserClose.

Global Instance call_eq_dec : EqDecision call.
Proof. solve_decision. Defined.

(** ** stats.go: counters *)

Module Counter.
Import Int64.

Record counter : Type := mkCounter { prev : Z; curr : Z }.

Definition newCounter : counter := {| prev := 0; curr := 0 |}.

(** [atomic.AddInt64(&c.curr, v)] *)
Definition Inc (v : Z) (c : counter) : counter :=
  {| prev := prev c; curr := add64 (curr c) v |}.

(** [counter.value]: the consuming read of the report path. *)
Definition value (c : counter) : Z * counter :=
  let curr0 := curr c in
  let prev0 := prev c in
  if prev0 =? curr0 then (0, c)
  else (sub64 curr0 prev0, {| prev := curr0; curr := curr c |}).

(** [counter.report] *)
Definition report (name : string) (tags : gmap string string) (c : counter)
  : list call * counter :=
  let '(delta, c') := value c in
  if delta =? 0 then ([], c') else ([ReportCounter name tags delta], c').

(** [counter.snapshot]: two loads, no store. *)
Definition snapshot (c : counter) : Z * counter :=
  (sub64 (curr c) (prev c), c).

(** A run of [Inc] calls. *)
Definition Incs (ds : list Z) (c : counter) : counter :=
  fold_left (fun c v => Inc v c) ds c.

End Counter.

(** ** stats.go: gauges *)

Module Gauge.

(** [math.Float64bits] and [math.Float64frombits] on the bit-pattern
    representation of a [float64]. *)
Definition Float64bits (v : Z) : Z := v.
Definition Float64frombits (b : Z) : Z := b.

Record gauge : Type := mkGauge { updated : Z; curr : Z }.

Definition newGauge : gauge := {| updated := 0; curr := 0 |}.

Definition Update (v : Z) (g : gauge) : gauge :=
  {| updated := 1; curr := Float64bits v |}.

Definition value (g : gauge) : Z := Float64frombits (curr g).

Definition snapshot (g : gauge) : Z := Float64frombits (curr g).

(** [gauge.report]: [atomic.SwapUint64(&g.updated, 0)] returns the old
    flag and clears it. *)
Definition report (name : string) (tags : gmap string string) (g : gauge)
  : list call * gauge :=
  let old := updated g in
  let g' := {| updated := 0; curr := curr g |} in
  if old =? 1 then ([ReportGauge name tags (value g')], g') else ([], g').

End Gauge.

(** ** Histories of one counter

    The calls one counter receives over its life: [Inc] from producers,
    the consuming read of a flush pass, the read of [Snapshot]. *)

Module CounterHistory.
Import Int64 Counter.

Inductive cop : Type :=
  | CInc (v : Z)
  | CConsume
  | CSnapshot.

Definition cstep (c : counter) (o : cop) : counter :=
  match o with
  | CInc v => Inc v c
  | CConsume => (value c).2
  | CSnapshot => (snapshot c).2
  end.

Definition run (h : list cop) : counter := fold_left cstep h newCounter.

(** The deltas of every [Inc] since the counter was created. *)
Definition all_deltas (h : list cop) : list Z :=
  omap (fun o => match o with CInc v => Some v | _ => None end) h.

(** The deltas of the [Inc] calls after the last consuming read. *)
Definition pending_deltas (h : list cop) : list Z :=
  fold_left (fun acc o =>
    match o with
    | CInc v => acc ++ [v]
    | CConsume => []
    | CSnapshot => acc
    end) h [].

End CounterHistory.

(** ** keymap.go: pooled scratch objects and the key codec *)

Module Keymap.

Local Open Scope string_scope.
Local Open Scope nat_scope.

(** [DB]: a buffered channel of reusable objects. [values] is the queue
    of the channel, [capacity] its [cap], and [alloc] the object a call of
    the allocation closure returns. *)
Record DB (A : Type) : Type := mkDB {
  alloc : A;
  capacity : nat;
  values : list A
}.
Arguments mkDB {A}.
Arguments alloc {A}.
Arguments capacity {A}.
Arguments values {A}.

(** [newDB] followed by [init]: the channel is filled up to its capacity. *)
Definition newDB {A} (size : nat) (fresh : A) : DB A :=
  {| alloc := fresh; capacity := size; values := replicate size fresh |}.

(** [put]: a non-blocking send; a full channel drops the object. *)
Definition put {A} (obj : A) (db : DB A) : DB A :=
  if decide (length (values db) < capacity db)
  then {| alloc := alloc db; capacity := capacity db; values := (values db ++ [obj])%list |}
  else db.

(** [get]: a non-blocking receive; an empty channel allocates. *)
Definition get {A} (db : DB A) : A * DB A :=
  match values db with
  | v :: rest => (v, {| alloc := alloc db; capacity := capacity db; values := rest |})
  | [] => (alloc db, db)
  end.

Definition nameSplitter : ascii := "="%char.
Definition pairSplitter : ascii := ","%char.
Definition prefixSplitter : ascii := "+"%char.
Definition emptyString : string := "".

(** A [*bytes.Buffer] is modelled by its contents, a [[]string] by its
    elements up to [len]; the code never reslices beyond [len]. *)
Definition Buffer : Type := string.
Definition WriteString (s : string) (b : Buffer) : Buffer := b +:+ s.
Definition WriteByte (c : ascii) (b : Buffer) : Buffer := b +:+ String c "".
Definition Reset (b : Buffer) : Buffer := "".

Record itemDB : Type := mkItemDB {
  bufferDB : DB Buffer;
  stringsDB : DB (list string)
}.

Definition newKeyDB (size blen slen : nat) : itemDB :=
  {| bufferDB := newDB size ""; stringsDB := newDB size [] |}.

Definition keyDB : itemDB := newKeyDB 512 512 64.

(** [itemDB.release] *)
Definition release (b : Buffer) (strs : list string) (s : itemDB) : itemDB :=
  let b := Reset b in
  let bdb := put b (bufferDB s) in
  let strs := (fun _ => emptyString) <$> strs in
  {| bufferDB := bdb; stringsDB := put (take 0 strs) (stringsDB s) |}.

(** The body of the loop over [i]; [keys[i]] out of range panics
    ([None]) and a key missing from the map reads as the zero value. *)
Fixpoint write_pairs (todo i sortedKeysLen : nat) (keys : list string)
    (stringMap : gmap string string) (buf : Buffer) : option Buffer :=
  match todo with
  | O => Some buf
  | S todo' =>
      match keys !! i with
      | None => None
      | Some k =>
          let buf := WriteString k buf in
          let buf := WriteByte nameSplitter buf in
          let buf := WriteString (default "" (stringMap !! k)) buf in
          let buf := if decide (i ≠ sortedKeysLen - 1)
                     then WriteByte pairSplitter buf else buf in
          write_pairs todo' (S i) sortedKeysLen keys stringMap buf
      end
  end.

(** [KeyMap]. [range_keys] is the order in which [for k := range
    stringMap] yields the keys, which Go leaves unspecified; [db] is the
    state of the package-level pool [keyDB] when the call starts. *)
Definition KeyMap (prefix : string) (stringMap : gmap string string)
    (range_keys : list string) (db : itemDB) : option (string * itemDB) :=
  let '(keys, sdb) := get (stringsDB db) in
  let keys := fold_left (fun keys k => (keys ++ [k])%list) range_keys keys in
  let keys := merge_sort String.le keys in
  let '(buf, bdb) := get (bufferDB db) in
  let db := {| bufferDB := bdb; stringsDB := sdb |} in
  let buf := if decide (prefix ≠ emptyString)
             then WriteByte prefixSplitter (WriteString prefix buf)
             else buf in
  let sortedKeysLen := size stringMap in
  match write_pairs sortedKeysLen 0 sortedKeysLen keys stringMap buf with
  | None => None
  | Some buf =>
      let key := buf in
      Some (key, release buf keys db)
  end.

(** The orders a [range] over the map may produce. *)
Definition range_of (stringMap : gmap string string) (range_keys : list string) : Prop :=
  range_keys ≡ₚ (map_to_list stringMap).*1.

(** What [release] establishes for the next call: every pooled buffer is
    empty and every pooled key slice has length 0. *)
Definition pool_ok (db : itemDB) : Prop :=
  alloc (bufferDB db) = "" ∧ Forall (eq "") (values (bufferDB db)) ∧
  alloc (stringsDB db) = [] ∧ Forall (eq []) (values (stringsDB db)).

(** The algorithm in the words of the specification: sort the tag keys
    lexicographically; a non-empty prefix is written followed by the
    prefix separator; then the [key=value] pairs, joined by the pair
    separator, in sorted-key order. *)
Definition sorted_keys (tags : gmap string string) : list string :=
  merge_sort String.le (map_to_list tags).*1.

Definition pair_of (tags : gmap string string) (k : string) : string :=
  k +:+ "=" +:+ default "" (tags !! k).

Definition KeyMap_spec (prefix : string) (tags : gmap string string) : string :=
  (if decide (prefix = "") then "" else prefix +:+ "+")
  +:+ String.concat "," (pair_of tags <$> sorted_keys tags).

(** The tag set as the list of its pairs in sorted-key order, and the
    text of one pair. *)
Definition sorted_pairs (tags : gmap string string) : list (string * string) :=
  (fun k => (k, default "" (tags !! k))) <$> sorted_keys tags.

Definition pair_string (kv : string * string) : string :=
  kv.1 +:+ "=" +:+ kv.2.

(** The expected alphabet: no tag key and no tag value contains one of
    the three separators. *)
Fixpoint contains (c : ascii) (s : string) : bool :=
  match s with
  | EmptyString => false
  | String x s' => if decide (x = c) then true else contains c s'
  end.

Definition no_separator (s : string) : Prop :=
  contains nameSplitter s = false ∧
  contains pairSplitter s = false ∧
  contains prefixSplitter s = false.

Definition tags_ok (tags : gmap string string) : Prop :=
  map_Forall (fun k v => no_separator k ∧ no_separator v) tags.

Global Instance no_separator_dec s : Decision (no_separator s).
Proof. unfold no_separator. apply _. Defined.

Global Instance tags_ok_dec tags : Decision (tags_ok tags).
Proof. unfold tags_ok. apply _. Defined.

(** A sequence of earlier calls on the shared pool. *)
Record keymap_call : Type := mkCall {
  kc_prefix : string;
  kc_tags : gmap string string;
  kc_range : list string
}.

Definition valid_call (c : keymap_call) : Prop :=
  range_of (kc_tags c) (kc_range c).

Fixpoint KeyMap_calls (calls : list keymap_call) (db : itemDB) : option itemDB :=
  match calls with
  | [] => Some db
  | c :: calls =>
      match KeyMap (kc_prefix c) (kc_tags c) (kc_range c) db with
      | None => None
      | Some (_, db') => KeyMap_calls calls db'
      end
  end.

(** The tag sets of the specification's example, built in both
    insertion orders. *)
Definition tags_ab : gmap string string := <["b":="2"]> (<["a":="1"]> ∅).
Definition tags_ba : gmap string string := <["a":="1"]> (<["b":="2"]> ∅).
Definition tags_a : gmap string string := <["a":="1"]> ∅.

End Keymap.

(** ** The scope tree, its registry and the report loop

    One root scope and the scopes derived from it. A [*scope] is an index
    into [heap]; the [scopeRegistry] every scope of the tree points to is
    [subscopes]; the calls the injected reporter has received so far are
    logged in [calls]. Each method runs under the locks the code takes, so
    it is one atomic step on the [world]; [newSubscope], which re-takes
    the registry lock after [subscope] released it, is a step of its own.
    Calls of [KeyMap] are written [KeyMap_spec]: [KeyMap_refines] shows
    that every call returns that string and leaves the pool fit for the
    next call. *)

Module Scope.
Import Keymap.

Local Open Scope string_scope.
Local Open Scope list_scope.
Local Open Scope nat_scope.

Definition DefaultSeparator : string := ".".

(** An [error]: [None] is [nil]. *)
Definition error : Type := option string.

(** The injected reporter. Its three methods append to the log
    [calls]; [closer] is [Some e] when the value implements [io.Closer]
    as well, [e] being what its [Close] returns. *)
Record StatsReporter : Type := mkReporter { closer : option error }.

Inductive chan : Type := ChanNil | ChanOpen | ChanClosed.

Record scopeStatus : Type := mkStatus { closed : bool; quit : chan }.

Record scope : Type := mkScope {
  prefix : string;
  reporter : option StatsReporter;
  separator : string;
  tags : gmap string string;
  status : scopeStatus;
  counters : gmap string Counter.counter;
  gauges : gmap string Gauge.gauge
}.

Record ScopeOptions : Type := mkOptions {
  Tags : option (gmap string string);
  Prefix : string;
  Reporter : option StatsReporter;
  Separator : string
}.

Record world : Type := mkWorld {
  heap : list scope;
  subscopes : gmap string nat;
  calls : list call;
  loop : bool
}.

Global Instance scope_inhabited : Inhabited scope :=
  populate (mkScope "" None "" ∅ (mkStatus false ChanNil) ∅ ∅).

(** What a call of a method returns or does to the caller. *)
Inductive outcome : Type :=
  | Returned (err : error)
  | Panicked.

Definition set_status (st : scopeStatus) (sc : scope) : scope :=
  mkScope (prefix sc) (reporter sc) (separator sc) (tags sc) st
          (counters sc) (gauges sc).

Definition set_counters (cs : gmap string Counter.counter) (sc : scope) : scope :=
  mkScope (prefix sc) (reporter sc) (separator sc) (tags sc) (status sc)
          cs (gauges sc).

Definition set_gauges (gs : gmap string Gauge.gauge) (sc : scope) : scope :=
  mkScope (prefix sc) (reporter sc) (separator sc) (tags sc) (status sc)
          (counters sc) gs.

Definition store (s : nat) (sc : scope) (w : world) : world :=
  mkWorld (<[s := sc]> (heap w)) (subscopes w) (calls w) (loop w).

Definition emit (out : list call) (w : world) : world :=
  mkWorld (heap w) (subscopes w) (calls w ++ out) (loop w).

Definition fullyQualifiedName (s : scope) (name : string) : string :=
  if decide (String.length (prefix s) = 0) then name
  else prefix s +:+ separator s +:+ name.

Definition copyMap (tags : gmap string string) : gmap string string :=
  map_fold (fun k v result => <[k := v]> result) ∅ tags.

(** [mergeRightTags]; the first test, on two [nil] maps, is the second
    one here. In the union the entries of [tagsRight] win. *)
Definition mergeRightTags (tagsLeft tagsRight : gmap string string)
  : gmap string string :=
  if decide (size tagsRight = 0) then tagsLeft
  else if decide (size tagsLeft = 0) then tagsRight
  else tagsRight ∪ tagsLeft.

(** [newRootScope]; [reportInterval > 0] starts the report loop. *)
Definition newRootScope (opts : ScopeOptions) (reportInterval : Z) : world :=
  let Tags := default ∅ (Tags opts) in
  let Separator := if decide (Separator opts = "") then DefaultSeparator
                   else Separator opts in
  let s := mkScope (Prefix opts) (Reporter opts) Separator (copyMap Tags)
                   (mkStatus false ChanOpen) ∅ ∅ in
  mkWorld [s] {[ KeyMap_spec (prefix s) (tags s) := 0 ]} []
          (bool_decide (0 < reportInterval)%Z).

Section ranging.

(** The order in which a [range] over a map yields its entries is left
    open by Go: the model takes it as a parameter. *)
Context (map_range : ∀ A : Type, gmap string A → list (string * A)).

(** [scope.report]: the loop over the counters, the loop over the
    gauges, the flush. *)
Definition report_counters (s : scope) : list call * gmap string Counter.counter :=
  foldl (fun acc entry =>
           let '(out, c') :=
             Counter.report (fullyQualifiedName s entry.1) (tags s) entry.2 in
           (acc.1 ++ out, <[entry.1 := c']> acc.2))
        ([], counters s) (map_range _ (counters s)).

Definition report_gauges (s : scope) : list call * gmap string Gauge.gauge :=
  foldl (fun acc entry =>
           let '(out, g') :=
             Gauge.report (fullyQualifiedName s entry.1) (tags s) entry.2 in
           (acc.1 ++ out, <[entry.1 := g']> acc.2))
        ([], gauges s) (map_range _ (gauges s)).

Definition report (ss : nat) (r : StatsReporter) (w : world) : world :=
  let s := heap w !!! ss in
  let '(out_c, cs) := report_counters s in
  let '(out_g, gs) := report_gauges s in
  let w := store ss (set_gauges gs (set_counters cs s)) w in
  emit (out_c ++ out_g ++ [Flush]) w.

Definition reportRegistryWithLock (s : nat) (w : world) : world :=
  match reporter (heap w !!! s) with
  | Some r => foldl (fun w entry => report entry.2 r w) w
                    (map_range _ (subscopes w))
  | None => w
  end.

Definition reportLoopRun (s : nat) (w : world) : world :=
  if closed (status (heap w !!! s)) then w
  else reportRegistryWithLock s w.

Definition Report (s : nat) (w : world) : world := reportLoopRun s w.

(** [scope.Close] *)
Definition Close (s : nat) (w : world) : outcome * world :=
  let sc := heap w !!! s in
  if closed (status sc) then (Returned None, w)
  else
    let w := store s (set_status (mkStatus true (quit (status sc))) sc) w in
    match quit (status sc) with
    | ChanOpen =>
        let w := store s (set_status (mkStatus true ChanClosed) sc) w in
        let w := reportRegistryWithLock s w in
        match reporter sc with
        | Some (mkReporter (Some e)) => (Returned e, emit [CloserClose] w)
        | _ => (Returned None, w)
        end
    | _ => (Panicked, w)
    end.

(** [scope.Snapshot] *)
Record counterSnapshot : Type := mkCounterSnapshot {
  cs_name : string; cs_tags : gmap string string; cs_value : Z }.
Record gaugeSnapshot : Type := mkGaugeSnapshot {
  gs_name : string; gs_tags : gmap string string; gs_value : Z }.
Record snapshot : Type := mkSnapshot {
  snap_counters : gmap string counterSnapshot;
  snap_gauges : gmap string gaugeSnapshot }.

Definition Snapshot (s : nat) (w : world) : snapshot :=
  foldl (fun snap entry =>
    let ss := heap w !!! entry.2 in
    let tags := copyMap (tags ss) in
    let cs := foldl (fun cs e =>
                let name := fullyQualifiedName ss e.1 in
                let id := KeyMap_spec name tags in
                <[id := mkCounterSnapshot name tags (Counter.snapshot e.2).1]> cs)
              (snap_counters snap) (map_range _ (counters ss)) in
    let gs := foldl (fun gs e =>
                let name := fullyQualifiedName ss e.1 in
                let id := KeyMap_spec name tags in
                <[id := mkGaugeSnapshot name tags (Gauge.snapshot e.2)]> gs)
              (snap_gauges snap) (map_range _ (gauges ss)) in
    mkSnapshot cs gs)
  (mkSnapshot ∅ ∅) (map_range _ (subscopes w)).

End ranging.

(** [scope.Counter] and [scope.counter]: look up, then create under the
    lock after a second look. The handle returned is the pair of the
    scope and the name. *)
Definition counter (s : nat) (name : string) (w : world) : world :=
  let sc := heap w !!! s in
  match counters sc !! name with
  | Some _ => w
  | None => store s (set_counters (<[name := Counter.newCounter]> (counters sc)) sc) w
  end.

Definition Counter (s : nat) (name : string) (w : world) : world :=
  match counters (heap w !!! s) !! name with
  | None => counter s name w
  | Some _ => w
  end.

Definition gauge (s : nat) (name : string) (w : world) : world :=
  let sc := heap w !!! s in
  match gauges sc !! name with
  | Some _ => w
  | None => store s (set_gauges (<[name := Gauge.newGauge]> (gauges sc)) sc) w
  end.

Definition Gauge (s : nat) (name : string) (w : world) : world :=
  match gauges (heap w !!! s) !! name with
  | None => gauge s name w
  | Some _ => w
  end.

(** [Inc] and [Update] through a handle. *)
Definition Inc (s : nat) (name : string) (v : Z) (w : world) : world :=
  let sc := heap w !!! s in
  store s (set_counters (alter (Counter.Inc v) name (counters sc)) sc) w.

Definition Update (s : nat) (name : string) (v : Z) (w : world) : world :=
  let sc := heap w !!! s in
  store s (set_gauges (alter (Gauge.Update v) name (gauges sc)) sc) w.

(** [scope.newSubscope], [scope.subscope], [scope.Tagged],
    [scope.SubScope]: each returns the scope pointer. *)
Definition newSubscope (s : nat) (prefix : string)
    (immutableTags : gmap string string) (key : string) (w : world)
  : nat * world :=
  match subscopes w !! key with
  | Some existing => (existing, w)
  | None =>
      let sc := heap w !!! s in
      let subscope := mkScope prefix (reporter sc) (separator sc) immutableTags
                              (mkStatus false ChanNil) ∅ ∅ in
      let p := length (heap w) in
      (p, mkWorld (heap w ++ [subscope]) (<[key := p]> (subscopes w))
                  (calls w) (loop w))
  end.

Definition subscope (s : nat) (prefix : string)
    (immutableTags : gmap string string) (w : world) : nat * world :=
  let immutableTags := mergeRightTags (tags (heap w !!! s)) immutableTags in
  let key := KeyMap_spec prefix immutableTags in
  match subscopes w !! key with
  | None => newSubscope s prefix immutableTags key w
  | Some existing => (existing, w)
  end.

Definition Tagged (s : nat) (tags : gmap string string) (w : world)
  : nat * world :=
  let tags := copyMap tags in
  subscope s (prefix (heap w !!! s)) tags w.

Definition SubScope (s : nat) (prefix : string) (w : world) : nat * world :=
  subscope s (fullyQualifiedName (heap w !!! s) prefix) ∅ w.

(** The root scope is the first object allocated. *)
Definition root : nat := 0.

(** [scope.reportLoop]: one turn of the loop takes the ticker case, or
    the quit case once the channel is closed, which ends the goroutine
    and stops the ticker. *)
Definition tick (map_range : ∀ A : Type, gmap string A → list (string * A))
    (w : world) : world :=
  if loop w then reportLoopRun map_range root w else w.

Definition loop_quit (w : world) : world :=
  if loop w then
    match quit (status (heap w !!! root)) with
    | ChanClosed => mkWorld (heap w) (subscopes w) (calls w) false
    | _ => w
    end
  else w.

(** The calls a program can make on the tree. *)
Inductive op : Type :=
  | OpCounter (s : nat) (name : string)
  | OpGauge (s : nat) (name : string)
  | OpInc (s : nat) (name : string) (v : Z)
  | OpUpdate (s : nat) (name : string) (v : Z)
  | OpTagged (s : nat) (tags : gmap string string)
  | OpSubScope (s : nat) (name : string)
  | OpNewSubscope (s : nat) (prefix : string) (tags : gmap string string)
  | OpSnapshot (s : nat)
  | OpReport (s : nat)
  | OpTick
  | OpLoopQuit
  | OpClose.

(** One call. A pointer is one that was handed out ([s < length (heap
    w)]); a handle on a counter or gauge comes from [Counter] or [Gauge];
    [Close] is called on the root, which is what [NewRootScope] returns
    as the closer. [OpNewSubscope] is the second half of a derivation
    whose lookup missed in an earlier state. *)
Definition step (map_range : ∀ A : Type, gmap string A → list (string * A))
    (w : world) (o : op) : world :=
  match o with
  | OpCounter s name =>
      if decide (s < length (heap w)) then Counter s name w else w
  | OpGauge s name =>
      if decide (s < length (heap w)) then Gauge s name w else w
  | OpInc s name v =>
      if decide (s < length (heap w)) then Inc s name v (Counter s name w) else w
  | OpUpdate s name v =>
      if decide (s < length (heap w)) then Update s name v (Gauge s name w) else w
  | OpTagged s tags =>
      if decide (s < length (heap w)) then (Tagged s tags w).2 else w
  | OpSubScope s name =>
      if decide (s < length (heap w)) then (SubScope s name w).2 else w
  | OpNewSubscope s prefix tags =>
      if decide (s < length (heap w))
      then (newSubscope s prefix tags (KeyMap_spec prefix tags) w).2 else w
  | OpSnapshot s => w
  | OpReport s =>
      if decide (s < length (heap w)) then Report map_range s w else w
  | OpTick => tick map_range w
  | OpLoopQuit => loop_quit w
  | OpClose => (Close map_range root w).2
  end.

Definition run (map_range : ∀ A : Type, gmap string A → list (string * A))
    (ops : list op) (w : world) : world :=
  foldl (step map_range) w ops.

(** The states a program can bring the tree to. *)
Definition reachable (map_range : ∀ A : Type, gmap string A → list (string * A))
    (w : world) : Prop :=
  ∃ opts reportInterval ops, w = run map_range ops (newRootScope opts reportInterval).

(** The root with its status set to closed and its quit channel closed,
    and what [Close] does with a reporter that is an [io.Closer]. *)
Definition mark_closed (w : world) : world :=
  store root (set_status (mkStatus true ChanClosed) (heap w !!! root)) w.

Definition closer_error (sc : scope) : error :=
  match reporter sc with
  | Some (mkReporter (Some e)) => e
  | _ => None
  end.

Definition closer_calls (sc : scope) : list call :=
  match reporter sc with
  | Some (mkReporter (Some e)) => [CloserClose]
  | _ => []
  end.

(** The calls of the log [l] that are [Flush] calls. *)
Definition flushes (l : list call) : nat := length (filter (eq Flush) l).

(** What one scope contributes to a pass: calls that forward metrics,
    closed by one [Flush]. *)
Definition flush_block (b : list call) : Prop :=
  ∃ metrics, b = metrics ++ [Flush] ∧ flushes metrics = 0.

(** The number of scopes a pass started on [s] visits: all of the
    registry, or none when [s] has no reporter. *)
Definition visited (s : nat) (w : world) : nat :=
  match reporter (heap w !!! s) with
  | Some _ => size (subscopes w)
  | None => 0
  end.

(** A root with a reporter and one scope derived by [Tagged]. *)
Definition two_scopes : world :=
  (Tagged root {[ "a" := "1" ]}
     (newRootScope (mkOptions None "" (Some (mkReporter None)) "") 0)).2.

(** The end-to-end scenario: a root with a reporter, [Counter("PollCount")]
    incremented by 1 three times. *)
Definition three_polls : world :=
  foldl (fun w _ => Inc root "PollCount" 1 (Counter root "PollCount" w))
        (newRootScope (mkOptions None "" (Some (mkReporter None)) "") 0)
        (seq 0 3).

(** *** Invariants *)

(** The key under which a scope is registered, and what stays fixed in
    a scope once it is created. *)
Definition key_of (sc : scope) : string := KeyMap_spec (prefix sc) (tags sc).

Definition ident (sc : scope)
  : string * gmap string string * string * option StatsReporter :=
  (prefix sc, tags sc, separator sc, reporter sc).

(** Every registry entry points to a scope whose key is the entry's, every
    scope is registered under its key, and the quit channel of a root
    that is not closed is open. *)
Record wf (w : world) : Prop := mkWf {
  wf_registry : ∀ key p, subscopes w !! key = Some p →
                  p < length (heap w) ∧ key_of (heap w !!! p) = key;
  wf_registered : ∀ p, p < length (heap w) →
                    subscopes w !! key_of (heap w !!! p) = Some p;
  wf_root : root < length (heap w);
  wf_quit : closed (status (heap w !!! root)) = false →
            quit (status (heap w !!! root)) = ChanOpen
}.

(** A step that creates no scope and leaves every status alone. *)
Record touch (w w' : world) : Prop := mkTouch {
  t_len : length (heap w') = length (heap w);
  t_ident : ∀ p, ident (heap w' !!! p) = ident (heap w !!! p);
  t_status : ∀ p, status (heap w' !!! p) = status (heap w !!! p);
  t_registry : subscopes w' = subscopes w
}.

(** What every step keeps: the scopes that exist, what is fixed in
    them, the registry entries, and a closed root. *)
Record persist (w w' : world) : Prop := mkPersist {
  p_len : length (heap w) ≤ length (heap w');
  p_ident : ∀ p, p < length (heap w) →
              ident (heap w' !!! p) = ident (heap w !!! p);
  p_registry : ∀ key p, subscopes w !! key = Some p →
                 subscopes w' !! key = Some p;
  p_closed : closed (status (heap w !!! root)) = true →
             closed (status (heap w' !!! root)) = true
}.

End Scope.

(** ** Flush passes racing on one counter

    The consuming read [counter.value] is three atomic operations, two
    loads and a store. It is only called by [counter.report], which
    [scope.report] calls for [reportRegistryWithLock], between
    [s.registry.Lock()] and [s.registry.Unlock()]. A thread below is the
    part of one flush pass that concerns one counter: take the registry
    mutex, do the three operations, release the mutex. Producers add to
    the counter with one atomic operation, at any time. A schedule
    interleaves the atomic steps of the threads. *)

Module Race.
Import Int64 Counter.

(** Where a consuming thread stands. *)
Inductive pc : Type :=
  | Idle                       (* before [registry.Lock()] *)
  | Locked                     (* holds the mutex *)
  | LoadedCurr (c : Z)         (* after [atomic.LoadInt64(&c.curr)] *)
  | LoadedPrev (c p : Z)       (* after [atomic.LoadInt64(&c.prev)] *)
  | Returned (d : Z)           (* [value] returned [d] *)
  | Done (d : Z).              (* after [registry.Unlock()] *)

Record sys : Type := mkSys {
  mem : counter;
  mutex : bool;
  threads : list pc;
  added : Z                    (* the mathematical sum of the [Inc] deltas so far *)
}.

Inductive action : Type :=
  | Step (i : nat)             (* thread [i] does its next atomic step *)
  | IncBy (v : Z).             (* a producer calls [Inc(v)] *)

(** The next atomic step of a thread; a thread that waits for the mutex
    stays where it is. *)
Definition thread_step (t : pc) (m : counter) (locked : bool)
  : pc * counter * bool :=
  match t with
  | Idle => if locked then (Idle, m, locked) else (Locked, m, true)
  | Locked => (LoadedCurr (curr m), m, locked)
  | LoadedCurr c => (LoadedPrev c (prev m), m, locked)
  | LoadedPrev c p =>
      if p =? c then (Returned 0, m, locked)
      else (Returned (sub64 c p), {| prev := c; curr := curr m |}, locked)
  | Returned d => (Done d, m, false)
  | Done d => (Done d, m, locked)
  end.

Definition act (st : sys) (a : action) : sys :=
  match a with
  | Step i =>
      match threads st !! i with
      | Some t =>
          let '(t', m', l') := thread_step t (mem st) (mutex st) in
          mkSys m' l' (<[i := t']> (threads st)) (added st)
      | None => st
      end
  | IncBy v => mkSys (Inc v (mem st)) (mutex st) (threads st) (added st + v)
  end.

Definition exec (sched : list action) (st : sys) : sys := foldl act st sched.

(** [n] flush passes about to consume the counter [c0]. *)
Definition init (c0 : counter) (n : nat) : sys :=
  mkSys c0 false (replicate n Idle) 0.

(** The delta a thread has observed, once [value] has returned. *)
Definition obs (t : pc) : option Z :=
  match t with
  | Returned d | Done d => Some d
  | _ => None
  end.

Definition observed (st : sys) (i : nat) : option Z := threads st !! i ≫= obs.

Definition is_step (a : action) : Prop :=
  match a with Step _ => True | IncBy _ => False end.

(** A thread between [Lock] and [Unlock]. *)
Definition critical (t : pc) : bool :=
  match t with
  | Idle | Done _ => false
  | _ => true
  end.

(** The invariant of the schedules without [Inc], from the counter [c0]. *)
Record quiet_inv (c0 : counter) (st : sys) : Prop := mkQuietInv {
  q_curr : curr (mem st) = curr c0;
  q_prev : prev (mem st) = prev c0 ∨ prev (mem st) = curr (mem st);
  q_free : mutex st = false →
           ∀ i t, threads st !! i = Some t → critical t = false;
  q_excl : ∀ i j ti tj, threads st !! i = Some ti → threads st !! j = Some tj →
           critical ti = true → critical tj = true → i = j;
  q_loadc : ∀ i c, threads st !! i = Some (LoadedCurr c) → c = curr c0;
  q_loadp : ∀ i c p, threads st !! i = Some (LoadedPrev c p) →
            c = curr c0 ∧ p = prev (mem st);
  q_val : ∀ i t d, threads st !! i = Some t → obs t = Some d →
          (d = 0 ∨ d = sub64 (curr c0) (prev c0)) ∧ prev (mem st) = curr (mem st);
  q_one : ∀ i j ti tj di dj, i ≠ j →
          threads st !! i = Some ti → threads st !! j = Some tj →
          obs ti = Some di → obs tj = Some dj → di = 0 ∨ dj = 0
}.

(** The sum of the deltas observed so far. *)
Definition obs_sum (ts : list pc) : Z :=
  foldr (fun t acc => default 0 (obs t) + acc) 0 ts.

(** The invariant of every schedule, from the counter [c0]: mutual
    exclusion, and the accounting of the deltas. *)
Record acct_inv (c0 : counter) (st : sys) : Prop := mkAcctInv {
  a_free : mutex st = false →
           ∀ i t, threads st !! i = Some t → critical t = false;
  a_excl : ∀ i j ti tj, threads st !! i = Some ti → threads st !! j = Some tj →
           critical ti = true → critical tj = true → i = j;
  a_loadp : ∀ i c p, threads st !! i = Some (LoadedPrev c p) → p = prev (mem st);
  a_acct : wrap64 (obs_sum (threads st) + (curr (mem st) - prev (mem st)))
           = wrap64 (curr c0 - prev c0 + added st)
}.

End Race.

(** ** More of stats.go and keymap.go: runs of calls, pool sizes *)

Module StatsMore.

(** A run of [Update] calls on one gauge. *)
Definition Updates (vs : list Z) (g : Gauge.gauge) : Gauge.gauge :=
  fold_left (fun g v => Gauge.Update v g) vs g.

(** A pool never holds more objects than its channel has room for. *)
Definition db_bounded {A} (d : Keymap.DB A) : Prop :=
  (length (Keymap.values d) ≤ Keymap.capacity d)%nat.

Definition pool_bounded (db : Keymap.itemDB) : Prop :=
  db_bounded (Keymap.bufferDB db) ∧ db_bounded (Keymap.stringsDB db).

(** The number of objects a [get] followed by a [put] leaves in a pool
    that held [n] objects and has room for [cap]. *)
Definition recycled (n cap : nat) : nat :=
  match n with
  | O => Nat.min 1 cap
  | S _ => n
  end.

End StatsMore.

(** ** More of the scope tree: what a flush pass forwards and leaves *)

Module ScopeMore.
Import Keymap Scope.
Local Open Scope nat_scope.

(** The call [counter.report] makes for one entry of the counter map of
    the scope [sc], if any, and likewise [gauge.report]. *)
Definition counter_call (sc : scope) (entry : string * Counter.counter)
  : option call :=
  let d := Int64.sub64 (Counter.curr entry.2) (Counter.prev entry.2) in
  if (d =? 0)%Z then None
  else Some (ReportCounter (fullyQualifiedName sc entry.1) (tags sc) d).

Definition gauge_call (sc : scope) (entry : string * Gauge.gauge)
  : option call :=
  if (Gauge.updated entry.2 =? 1)%Z
  then Some (ReportGauge (fullyQualifiedName sc entry.1) (tags sc)
                         (Gauge.value entry.2))
  else None.

(** A scope whose every counter has been consumed and whose every gauge
    has been reported. *)
Definition consumed_counter (c : Counter.counter) : Counter.counter :=
  {| Counter.prev := Counter.curr c; Counter.curr := Counter.curr c |}.

Definition consumed_gauge (g : Gauge.gauge) : Gauge.gauge :=
  {| Gauge.updated := 0; Gauge.curr := Gauge.curr g |}.

Definition consumed (sc : scope) : scope :=
  set_gauges (consumed_gauge <$> gauges sc)
             (set_counters (consumed_counter <$> counters sc) sc).

(** Nothing is pending in the scope: no counter has a delta, no gauge is
    dirty. *)
Definition settled (sc : scope) : Prop :=
  (∀ name c, counters sc !! name = Some c → Counter.prev c = Counter.curr c) ∧
  (∀ name g, gauges sc !! name = Some g → Gauge.updated g ≠ 1%Z).

(** The scopes a pass visits. *)
Definition registered (w : world) (p : nat) : Prop :=
  ∃ key, subscopes w !! key = Some p.

(** The calls of the log that are calls of the reporter's [Close]. *)
Definition closes (l : list call) : nat := length (filter (eq CloserClose) l).

(** No tag of any scope of the tree leaves the expected alphabet. *)
Definition all_tags_ok (w : world) : Prop :=
  ∀ p, p < length (heap w) → tags_ok (tags (heap w !!! p)).

(** What the scopes of one tree share, what derived scopes keep, and
    how often the reporter has been closed. *)
Record tree_inv (w : world) : Prop := mkTreeInv {
  ti_root : root < length (heap w);
  ti_shared : ∀ p, p < length (heap w) →
              separator (heap w !!! p) = separator (heap w !!! root) ∧
              reporter (heap w !!! p) = reporter (heap w !!! root);
  ti_separator : separator (heap w !!! root) ≠ ""%string;
  ti_derived : ∀ p, 0 < p < length (heap w) →
               status (heap w !!! p) = mkStatus false ChanNil;
  ti_closes : closes (calls w) ≤ 1;
  ti_open : closed (status (heap w !!! root)) = false → closes (calls w) = 0
}.

(** The metrics of the scope [sc] exist in the scope [sc']. *)
Definition metrics_kept (sc sc' : scope) : Prop :=
  ∀ name,
    (is_Some (counters sc !! name) → is_Some (counters sc' !! name)) ∧
    (is_Some (gauges sc !! name) → is_Some (gauges sc' !! name)).

(** Scopes, registry entries and metrics that exist in [w] exist in [w']. *)
Record nothing_removed (w w' : world) : Prop := mkNothingRemoved {
  nr_heap : length (heap w) ≤ length (heap w');
  nr_registry : ∀ key p, subscopes w !! key = Some p →
                  subscopes w' !! key = Some p;
  nr_metrics : ∀ p, p < length (heap w) →
                 metrics_kept (heap w !!! p) (heap w' !!! p)
}.

(** The elementary changes the calls other than [Close] are made of:
    a scope is rewritten in place with what is fixed in it, its status
    and its metric names kept; the reporter receives calls other than
    [Close]; a scope is allocated and registered under a free key, with
    the reporter and the separator of the scope it derives from; the
    report loop ends. *)
Inductive change : world → world → Prop :=
  | change_store s sc' w :
      ident sc' = ident (heap w !!! s) →
      status sc' = status (heap w !!! s) →
      metrics_kept (heap w !!! s) sc' →
      change w (store s sc' w)
  | change_emit out w :
      closes out = 0 →
      change w (emit out w)
  | change_alloc s pre tgs key w :
      s < length (heap w) →
      subscopes w !! key = None →
      change w (mkWorld
                  (heap w ++ [mkScope pre (reporter (heap w !!! s))
                                      (separator (heap w !!! s)) tgs
                                      (mkStatus false ChanNil) ∅ ∅])
                  (<[key := length (heap w)]> (subscopes w))
                  (calls w) (loop w))
  | change_loop b w :
      change w (mkWorld (heap w) (subscopes w) (calls w) b).

(** What an entry of a snapshot describes: a counter, or a gauge, of a
    registered scope, under the key made of its own name and tags. *)
Definition counter_entry (w : world) (id : string) (cs : counterSnapshot) : Prop :=
  ∃ key p name c,
    subscopes w !! key = Some p ∧ counters (heap w !!! p) !! name = Some c ∧
    cs_name cs = fullyQualifiedName (heap w !!! p) name ∧
    cs_tags cs = tags (heap w !!! p) ∧
    cs_value cs = Int64.sub64 (Counter.curr c) (Counter.prev c) ∧
    id = KeyMap_spec (cs_name cs) (cs_tags cs).

Definition gauge_entry (w : world) (id : string) (gs : gaugeSnapshot) : Prop :=
  ∃ key p name g,
    subscopes w !! key = Some p ∧ gauges (heap w !!! p) !! name = Some g ∧
    gs_name gs = fullyQualifiedName (heap w !!! p) name ∧
    gs_tags gs = tags (heap w !!! p) ∧
    gs_value gs = Gauge.Float64frombits (Gauge.curr g) ∧
    id = KeyMap_spec (gs_name gs) (gs_tags gs).

End ScopeMore.

(** ** The in-memory store of the server ([internal/store/store.go])

    [FDB] keeps the counters and gauges the server has received. The
    mutex makes every method one atomic step on the record; the map
    fields are [make]d by [NewFDB], so each is a [gmap]. [updateCount]
    is an [int], 64 bits wide, and [tstamp] is the clock reading the
    caller's [time.Now()] returned, passed in as [now]. *)
Module Store.
Import Int64.

Record FDB : Type := mkFDB {
  counters : gmap string Z;
  gauges : gmap string Z;
  updateCount : Z;
  tstamp : Z }.

(** [NewFDB] without [WithFile]: the early return on an empty filename. *)
Definition NewFDB : FDB := mkFDB ∅ ∅ 0 0.

(** [f.counters[id] = f.counters[id] + delta]: a missing key reads as
    the zero value. *)
Definition UpdateCounter (now : Z) (id : string) (delta : Z) (f : FDB) : Z * FDB :=
  let counters' := <[id := add64 (default 0 (counters f !! id)) delta]> (counters f) in
  let updateCount' := wrap64 (updateCount f + 1) in
  (updateCount', mkFDB counters' (gauges f) updateCount' now).

Definition UpdateGauge (now : Z) (id : string) (value : Z) (f : FDB) : Z * FDB :=
  let gauges' := <[id := value]> (gauges f) in
  let updateCount' := wrap64 (updateCount f + 1) in
  (updateCount', mkFDB (counters f) gauges' updateCount' now).

(** [v, ok := f.counters[id]] *)
Definition Counter (id : string) (f : FDB) : Z * bool :=
  match counters f !! id with
  | Some v => (v, true)
  | None => (0, false)
  end.

Definition Gauge (id : string) (f : FDB) : Z * bool :=
  match gauges f !! id with
  | Some v => (v, true)
  | None => (0, false)
  end.

Definition UpdateCount (f : FDB) : Z := updateCount f.

(** [MapOrderedCounter] and [MapOrderedGauge]: the keys are collected in
    the order [range_keys] in which [range] yields them, sorted with
    [sort.Strings], and [fun] is called on each with the value read back
    from the map. The effect of [fun] is a state [S] it threads. *)
Definition MapOrderedCounter {S : Type} (range_keys : list string)
    (fun_ : string → Z → S → S) (f : FDB) (st : S) : S :=
  let keys := fold_left (fun keys k => keys ++ [k]) range_keys [] in
  let keys := merge_sort String.le keys in
  fold_left (fun st k => fun_ k (default 0 (counters f !! k)) st) keys st.

Definition MapOrderedGauge {S : Type} (range_keys : list string)
    (fun_ : string → Z → S → S) (f : FDB) (st : S) : S :=
  let keys := fold_left (fun keys k => keys ++ [k]) range_keys [] in
  let keys := merge_sort String.le keys in
  fold_left (fun st k => fun_ k (default 0 (gauges f !! k)) st) keys st.

(** A run of updates, as the handlers issue them. *)
Inductive update : Type :=
  | UCounter (now : Z) (id : string) (delta : Z)
  | UGauge (now : Z) (id : string) (value : Z).

Definition apply (f : FDB) (u : update) : FDB :=
  match u with
  | UCounter now id delta => (UpdateCounter now id delta f).2
  | UGauge now id value => (UpdateGauge now id value f).2
  end.

Definition run (us : list update) (f : FDB) : FDB := fold_left apply us f.

(** The deltas a run adds to the counter [id], and the values it writes
    to the gauge [id], in order. *)
Definition deltas_of (id : string) (us : list update) : list Z :=
  omap (fun u => match u with
                 | UCounter _ id' delta => if decide (id' = id) then Some delta else None
                 | UGauge _ _ _ => None
                 end) us.

Definition values_of (id : string) (us : list update) : list Z :=
  omap (fun u => match u with
                 | UGauge _ id' value => if decide (id' = id) then Some value else None
                 | UCounter _ _ _ => None
                 end) us.

(** What a visit in key order is: keys ascending without repetition,
    and the pairs exactly those of the map. *)
Definition in_key_order {A} (m : gmap string A) (l : list (string * A)) : Prop :=
  StronglySorted String.le l.*1 ∧ NoDup l.*1 ∧
  ∀ k v, (k, v) ∈ l ↔ m !! k = Some v.

End Store.

(** * Properties *)

(** ** 64-bit arithmetic *)

Section int64_facts.
Import Int64.

Lemma wrap64_range z : in_int64 (wrap64 z).
Proof.
  unfold in_int64, wrap64, modulus, half_modulus.
  pose proof (Z.mod_pos_bound (z + 2 ^ 63) (2 ^ 64)). lia.
Qed.

Lemma wrap64_id z : in_int64 z -> wrap64 z = z.
Proof.
  unfold in_int64, wrap64, modulus, half_modulus. intros H.
  rewrite Z.mod_small; lia.
Qed.

Lemma wrap64_congr a b : (a - b) mod modulus = 0 -> wrap64 a = wrap64 b.
Proof.
  unfold wrap64, modulus, half_modulus. intros H.
  apply Z.mod_divide in H; [|lia]. destruct H as [k Hk].
  replace (a + 2 ^ 63) with (b + 2 ^ 63 + k * 2 ^ 64) by lia.
  rewrite Z.mod_add; lia.
Qed.

Lemma wrap64_diff z : (wrap64 z - z) mod modulus = 0.
Proof.
  unfold wrap64, modulus, half_modulus.
  rewrite (Z.mod_eq (z + 2 ^ 63) (2 ^ 64)) by lia.
  replace (z + 2 ^ 63 - 2 ^ 64 * ((z + 2 ^ 63) / 2 ^ 64) - 2 ^ 63 - z)
    with ((- ((z + 2 ^ 63) / 2 ^ 64)) * 2 ^ 64) by lia.
  apply Z.mod_mul. lia.
Qed.

Lemma wrap64_idemp z : wrap64 (wrap64 z) = wrap64 z.
Proof. apply wrap64_id, wrap64_range. Qed.

Lemma wrap64_add_l a b : wrap64 (wrap64 a + b) = wrap64 (a + b).
Proof.
  apply wrap64_congr.
  replace (wrap64 a + b - (a + b)) with (wrap64 a - a) by lia.
  apply wrap64_diff.
Qed.

Lemma wrap64_sub_l a b : wrap64 (wrap64 a - b) = wrap64 (a - b).
Proof.
  apply wrap64_congr.
  replace (wrap64 a - b - (a - b)) with (wrap64 a - a) by lia.
  apply wrap64_diff.
Qed.

Lemma wrap64_sub_r a b : wrap64 (a - wrap64 b) = wrap64 (a - b).
Proof.
  apply wrap64_congr.
  replace (a - wrap64 b - (a - b)) with (- (wrap64 b - b)) by lia.
  pose proof (wrap64_diff b) as H. unfold modulus in *.
  apply Z.mod_divide in H; [|lia]. apply Z.mod_divide; [lia|].
  by apply Z.divide_opp_r.
Qed.

Lemma wrap64_0 : wrap64 0 = 0.
Proof. reflexivity. Qed.

Lemma fold_add64_wrap ds a :
  wrap64 (fold_left add64 ds a) = wrap64 (a + sumZ ds).
Proof.
  revert a. induction ds as [|d ds IH]; intros a; simpl.
  - f_equal. lia.
  - rewrite IH. unfold add64. rewrite wrap64_add_l. f_equal. lia.
Qed.

Lemma fold_add64_range ds a : in_int64 a -> in_int64 (fold_left add64 ds a).
Proof.
  revert a. induction ds as [|d ds IH]; intros a Ha; simpl; [done|].
  apply IH, wrap64_range.
Qed.

Lemma sum64_wrap ds : sum64 ds = wrap64 (sumZ ds).
Proof.
  unfold sum64. rewrite <- (wrap64_id (fold_left add64 ds 0)).
  - by rewrite fold_add64_wrap.
  - apply fold_add64_range. unfold in_int64, half_modulus. lia.
Qed.

(** When the deltas do not overflow, the [int64] sum is the sum. *)
Lemma sum64_exact ds : in_int64 (sumZ ds) -> sum64 ds = sumZ ds.
Proof. intros H. rewrite sum64_wrap. by apply wrap64_id. Qed.

End int64_facts.

(** ** Counters *)

Section counter_facts.
Import Int64 Counter.

Lemma value_delta c : (value c).1 = sub64 (curr c) (prev c).
Proof.
  unfold value. destruct (Z.eqb_spec (prev c) (curr c)) as [->|]; simpl; [|done].
  unfold sub64. by rewrite Z.sub_diag.
Qed.

Lemma value_state c : (value c).2 = {| prev := curr c; curr := curr c |}.
Proof.
  unfold value. destruct (Z.eqb_spec (prev c) (curr c)) as [E|]; simpl; [|done].
  destruct c; simpl in *; by subst.
Qed.

Lemma value_settled c : prev c = curr c -> value c = (0, c).
Proof. intros E. unfold value. by rewrite E, Z.eqb_refl. Qed.

Lemma prev_Incs ds c : prev (Incs ds c) = prev c.
Proof. revert c. induction ds as [|d ds IH]; intros c; simpl; [done|]. by rewrite IH. Qed.

Lemma curr_Incs ds c : curr (Incs ds c) = fold_left add64 ds (curr c).
Proof. revert c. induction ds as [|d ds IH]; intros c; simpl; [done|]. by rewrite IH. Qed.

Lemma report_calls name tags c :
  (report name tags c).1 =
    if (value c).1 =? 0 then [] else [ReportCounter name tags (value c).1].
Proof. unfold report. destruct (value c) as [d c']; simpl. by destruct (d =? 0). Qed.

Lemma report_state name tags c : (report name tags c).2 = (value c).2.
Proof. unfold report. destruct (value c) as [d c']; simpl. by destruct (d =? 0). Qed.

Lemma delta_after_Incs ds c :
  prev c = curr c -> (value (Incs ds c)).1 = sum64 ds.
Proof.
  intros E. rewrite value_delta, prev_Incs, curr_Incs, E.
  unfold sub64. rewrite <- wrap64_sub_l, fold_add64_wrap, wrap64_sub_l.
  rewrite sum64_wrap. f_equal. lia.
Qed.

(** C1. Between two consuming reads of a counter, [Inc] calls whose
    deltas sum to S make the second read return exactly S (the [int64]
    sum of the deltas) and move the baseline [prev] to the current total;
    a third read right after it returns 0 and changes nothing; and the
    report step forwards S when it is not zero and emits no
    [ReportCounter] call when the consumed delta is zero. *)
Theorem counter_consume_delta (c : counter) (ds : list Z)
    (name : string) (tags : gmap string string) :
  let c1 := (value c).2 in
  let c2 := Incs ds c1 in
  let c3 := (value c2).2 in
  (value c2).1 = sum64 ds ∧
  prev c3 = curr c2 ∧ curr c3 = curr c2 ∧
  value c3 = (0, c3) ∧
  (report name tags c2).1 =
    (if sum64 ds =? 0 then [] else [ReportCounter name tags (sum64 ds)]) ∧
  (report name tags c2).2 = c3 ∧
  report name tags c3 = ([], c3).
Proof.
  intros c1 c2 c3.
  assert (E1 : prev c1 = curr c1) by (unfold c1; by rewrite value_state).
  assert (E3 : prev c3 = curr c3) by (unfold c3; by rewrite value_state).
  assert (V3 : value c3 = (0, c3)) by (by apply value_settled).
  assert (D : (value c2).1 = sum64 ds) by (by apply delta_after_Incs).
  repeat split.
  - exact D.
  - unfold c3. by rewrite value_state.
  - unfold c3. by rewrite value_state.
  - exact V3.
  - by rewrite report_calls, D.
  - apply report_state.
  - unfold report. by rewrite V3.
Qed.

(** Without overflow the value returned is the mathematical sum. *)
Corollary counter_consume_delta_exact (c : counter) (ds : list Z) :
  in_int64 (sumZ ds) -> (value (Incs ds (value c).2)).1 = sumZ ds.
Proof.
  intros H. rewrite delta_after_Incs by (by rewrite value_state).
  by apply sum64_exact.
Qed.

End counter_facts.

Section counter_history_facts.
Import Int64 Counter CounterHistory.

Lemma run_snoc h o : run (h ++ [o]) = cstep (run h) o.
Proof. unfold run. by rewrite fold_left_app. Qed.

Lemma pending_snoc h o :
  pending_deltas (h ++ [o]) =
    match o with
    | CInc v => pending_deltas h ++ [v]
    | CConsume => []
    | CSnapshot => pending_deltas h
    end.
Proof. unfold pending_deltas. by rewrite fold_left_app. Qed.

Lemma sum64_snoc ds v : sum64 (ds ++ [v]) = add64 (sum64 ds) v.
Proof. unfold sum64. by rewrite fold_left_app. Qed.

Lemma run_pending h :
  sub64 (curr (run h)) (prev (run h)) = sum64 (pending_deltas h).
Proof.
  induction h as [|o h IH] using rev_ind; [done|].
  rewrite run_snoc, pending_snoc. destruct o as [v| |]; simpl.
  - rewrite sum64_snoc, <- IH. unfold add64, sub64.
    rewrite wrap64_sub_l, wrap64_add_l. f_equal. lia.
  - rewrite value_state. simpl. unfold sub64. by rewrite Z.sub_diag.
  - exact IH.
Qed.

(** C8, as the code has it. For every history of a counter, [snapshot]
    returns the sum of the [Inc] deltas made since the last consuming
    read (since the creation when there was none) and leaves the counter,
    its baseline included, as it was; so the next consuming read returns
    what it would have returned without the snapshot. *)
Theorem snapshot_since_last_report (h : list cop) :
  snapshot (run h) = (sum64 (pending_deltas h), run h) ∧
  prev (snapshot (run h)).2 = prev (run h) ∧
  value (snapshot (run h)).2 = value (run h) ∧
  (value (run h)).1 = sum64 (pending_deltas h).
Proof.
  unfold snapshot. simpl. rewrite run_pending. repeat split.
  by rewrite value_delta, run_pending.
Qed.

(** C8 as stated fails: after [Inc(5)] and one consuming read the
    snapshot is 0, while the deltas since the creation sum to 5. *)
Lemma snapshot_not_total_since_creation :
  let h := [CInc 5; CConsume] in
  (snapshot (run h)).1 = 0 ∧ sum64 (all_deltas h) = 5 ∧
  (snapshot (run h)).1 ≠ sum64 (all_deltas h).
Proof. vm_compute. repeat split; congruence. Qed.

End counter_history_facts.

(** ** Gauges *)

Section gauge_facts.
Import Gauge.

(** C7. [Update(x)] leaves the gauge dirty with value [x]; the report
    step that follows emits exactly one [ReportGauge(name, tags, x)] and
    clears the flag; a second report step right after it emits nothing,
    and the stored value is still [x]. *)
Theorem gauge_update_report (g : gauge) (x : Z)
    (name : string) (tags : gmap string string) :
  let g1 := Update x g in
  let g2 := (report name tags g1).2 in
  updated g1 = 1 ∧ value g1 = x ∧
  (report name tags g1).1 = [ReportGauge name tags x] ∧
  updated g2 = 0 ∧ value g2 = x ∧
  report name tags g2 = ([], g2).
Proof. repeat split. Qed.

End gauge_facts.

(** ** The key codec *)

Section string_facts.
Import Keymap.
Local Open Scope string_scope.

Lemma str_app_cons a s t : String a s +:+ t = String a (s +:+ t).
Proof. reflexivity. Qed.

Lemma str_app_nil_r s : s +:+ "" = s.
Proof. induction s as [|a s IH]; [done|]. by rewrite str_app_cons, IH. Qed.

Lemma str_app_assoc s t u : (s +:+ t) +:+ u = s +:+ (t +:+ u).
Proof. induction s as [|a s IH]; [done|]. by rewrite !str_app_cons, IH. Qed.

Lemma str_app_char c s t : (s +:+ String c "") +:+ t = s +:+ String c t.
Proof. by rewrite str_app_assoc. Qed.

Lemma contains_app c s t :
  contains c (s +:+ t) = contains c s || contains c t.
Proof.
  induction s as [|a s IH]; [done|].
  rewrite str_app_cons. simpl. by destruct (decide (a = c)).
Qed.

Lemma contains_cons_eq c s : contains c (String c s) = true.
Proof. simpl. by rewrite decide_True. Qed.

(** Cutting at the first occurrence of a separator. *)
Lemma split_first c a a' b b' :
  contains c a = false → contains c a' = false →
  a +:+ String c b = a' +:+ String c b' → a = a' ∧ b = b'.
Proof.
  revert a'. induction a as [|x a IH]; intros [|x' a'] Ha Ha' E.
  - by simplify_eq.
  - rewrite str_app_cons in E. injection E as -> _.
    by rewrite contains_cons_eq in Ha'.
  - rewrite str_app_cons in E. injection E as -> _.
    by rewrite contains_cons_eq in Ha.
  - rewrite !str_app_cons in E. injection E as -> E.
    simpl in Ha, Ha'. destruct (decide (x' = c)); [done|].
    destruct (IH a' Ha Ha' E) as [-> ->]. done.
Qed.

(** Cutting at the last occurrence of a separator. *)
Lemma split_last c a a' b b' :
  contains c b = false → contains c b' = false →
  a +:+ String c b = a' +:+ String c b' → a = a' ∧ b = b'.
Proof.
  intros Hb Hb'. revert a'. induction a as [|x a IH]; intros [|x' a'] E.
  - by simplify_eq.
  - rewrite str_app_cons in E. injection E as _ E. subst b.
    by rewrite contains_app, contains_cons_eq, orb_true_r in Hb.
  - rewrite str_app_cons in E. injection E as _ E. subst b'.
    by rewrite contains_app, contains_cons_eq, orb_true_r in Hb'.
  - rewrite !str_app_cons in E. injection E as -> E.
    destruct (IH a' E) as [-> ->]. done.
Qed.

Lemma concat_cons sep (x : string) (l : list string) :
  String.concat sep (x :: l) =
    x +:+ match l with [] => "" | _ => sep +:+ String.concat sep l end.
Proof. destruct l; simpl; [by rewrite str_app_nil_r|done]. Qed.

End string_facts.

Section keymap_facts.
Import Keymap.
Local Open Scope string_scope.
Local Open Scope nat_scope.

Implicit Types (tags : gmap string string) (db : itemDB).

(** *** The loop writes the joined pairs *)

Lemma write_pairs_concat tags (done rest : list string) (buf : Buffer) :
  write_pairs (length rest) (length done) (length (done ++ rest))
              (done ++ rest) tags buf
  = Some (buf +:+ String.concat "," (pair_of tags <$> rest)).
Proof.
  revert done buf. induction rest as [|k rest IH]; intros done buf.
  - simpl. by rewrite str_app_nil_r.
  - cbn [write_pairs length]. rewrite list_lookup_middle by done.
    replace (S (length done)) with (length (done ++ [k]))
      by (rewrite length_app; simpl; lia).
    replace (done ++ k :: rest)%list with ((done ++ [k]) ++ rest)%list
      by (by rewrite <- app_assoc).
    rewrite fmap_cons, concat_cons.
    destruct rest as [|k' rest].
    + rewrite decide_False by (rewrite !length_app; simpl; lia).
      rewrite IH. simpl. unfold WriteString, WriteByte, pair_of, nameSplitter.
      by rewrite !str_app_nil_r, !str_app_assoc.
    + rewrite decide_True by (rewrite !length_app; simpl; lia).
      rewrite IH. unfold WriteString, WriteByte, pair_of, nameSplitter, pairSplitter.
      by rewrite !str_app_assoc.
Qed.

(** *** The pool *)

Lemma get_ok {A} (x : A) (d : DB A) :
  alloc d = x → Forall (eq x) (values d) →
  (get d).1 = x ∧ alloc (get d).2 = x ∧ Forall (eq x) (values (get d).2).
Proof.
  intros Ha Hv. unfold get. destruct (values d) as [|v rest] eqn:E; simpl.
  - by rewrite E.
  - inversion Hv; subst. done.
Qed.

Lemma put_ok {A} (x : A) (d : DB A) :
  alloc d = x → Forall (eq x) (values d) →
  alloc (put x d) = x ∧ Forall (eq x) (values (put x d)).
Proof.
  intros Ha Hv. unfold put. case_decide; simpl; [|done].
  split; [done|]. apply Forall_app. split; [done|]. by constructor.
Qed.

Lemma newKeyDB_ok size blen slen : pool_ok (newKeyDB size blen slen).
Proof.
  unfold pool_ok, newKeyDB, newDB; cbn [bufferDB stringsDB alloc values].
  repeat split; apply Forall_replicate_eq.
Qed.

Lemma keyDB_ok : pool_ok keyDB.
Proof. apply newKeyDB_ok. Qed.

Lemma append_range (l acc : list string) :
  fold_left (fun keys k => (keys ++ [k])%list) l acc = (acc ++ l)%list.
Proof.
  revert acc. induction l as [|k l IH]; intros acc; simpl.
  - by rewrite app_nil_r.
  - by rewrite IH, <- app_assoc.
Qed.

Lemma sort_range tags (range_keys : list string) :
  range_of tags range_keys → merge_sort String.le range_keys = sorted_keys tags.
Proof.
  intros Hp. unfold sorted_keys.
  apply (Sorted_unique String.le); try apply Sorted_merge_sort; try apply _.
  by rewrite !merge_sort_Permutation.
Qed.

Lemma length_sorted_keys tags : length (sorted_keys tags) = size tags.
Proof.
  unfold sorted_keys. rewrite merge_sort_Permutation, length_fmap.
  apply length_map_to_list.
Qed.

(** *** Refinement: the code computes the specified string *)

Lemma KeyMap_refines prefix tags range_keys db :
  pool_ok db → range_of tags range_keys →
  ∃ db', KeyMap prefix tags range_keys db = Some (KeyMap_spec prefix tags, db')
         ∧ pool_ok db'.
Proof.
  intros (Hba & Hbv & Hsa & Hsv) Hr. unfold KeyMap.
  destruct (get_ok [] (stringsDB db) Hsa Hsv) as (Hk & Hsa' & Hsv').
  destruct (get_ok (A:=Buffer) "" (bufferDB db) Hba Hbv) as (Hb & Hba' & Hbv').
  destruct (get (stringsDB db)) as [keys sdb].
  destruct (get (bufferDB db)) as [buf bdb]. simpl in *. subst keys buf.
  rewrite append_range, app_nil_l, (sort_range tags) by done.
  pose proof (write_pairs_concat tags [] (sorted_keys tags)) as W.
  simpl in W. rewrite length_sorted_keys in W. rewrite W.
  eexists. split.
  - f_equal. f_equal. unfold KeyMap_spec, emptyString, WriteString, WriteByte.
    do 2 case_decide; try done.
  - unfold release, pool_ok. simpl.
    destruct (put_ok (A:=Buffer) "" bdb Hba' Hbv'). destruct (put_ok [] sdb Hsa' Hsv').
    done.
Qed.

(** *** Injectivity on the expected alphabet *)

Lemma KeyMap_spec_pairs prefix tags :
  KeyMap_spec prefix tags =
    (if decide (prefix = "") then "" else prefix +:+ "+")
    +:+ String.concat "," (pair_string <$> sorted_pairs tags).
Proof. unfold KeyMap_spec, sorted_pairs. by rewrite <- list_fmap_compose. Qed.

Lemma pairs_of_map_to_list tags :
  (fun k => (k, default "" (tags !! k))) <$> (map_to_list tags).*1 = map_to_list tags.
Proof.
  rewrite <- list_fmap_compose. apply list_eq. intros i.
  rewrite list_lookup_fmap. destruct (map_to_list tags !! i) as [[k v]|] eqn:E; [|done].
  simpl. apply list_elem_of_lookup_2, elem_of_map_to_list in E. by rewrite E.
Qed.

Lemma sorted_pairs_perm tags : sorted_pairs tags ≡ₚ map_to_list tags.
Proof.
  unfold sorted_pairs, sorted_keys.
  by rewrite merge_sort_Permutation, pairs_of_map_to_list.
Qed.

Lemma sorted_pairs_to_map tags : list_to_map (sorted_pairs tags) = tags.
Proof.
  rewrite <- (list_to_map_to_list tags) at 2.
  apply list_to_map_proper; [|apply sorted_pairs_perm].
  rewrite sorted_pairs_perm. apply NoDup_fst_map_to_list.
Qed.

Lemma sorted_pairs_ok tags :
  tags_ok tags → Forall (fun kv => no_separator kv.1 ∧ no_separator kv.2) (sorted_pairs tags).
Proof.
  intros Hok. rewrite sorted_pairs_perm. apply Forall_forall.
  intros [k v] Hin%elem_of_map_to_list. by apply Hok.
Qed.

Lemma concat_pairs_cons k v (l : list (string * string)) :
  String.concat "," (pair_string <$> (k, v) :: l) =
    k +:+ String nameSplitter
      (v +:+ match l with
             | [] => ""
             | _ => String pairSplitter (String.concat "," (pair_string <$> l))
             end).
Proof.
  rewrite fmap_cons, concat_cons. unfold pair_string at 1. cbn [fst snd].
  rewrite !str_app_assoc. by destruct l.
Qed.

Lemma contains_concat_pairs c (l : list (string * string)) :
  c ≠ nameSplitter → c ≠ pairSplitter →
  Forall (fun kv => contains c kv.1 = false ∧ contains c kv.2 = false) l →
  contains c (String.concat "," (pair_string <$> l)) = false.
Proof.
  intros Hn Hp. induction 1 as [|[k v] l [Hk Hv] Hl IH]; [done|].
  rewrite concat_pairs_cons. cbn [fst snd] in *.
  rewrite contains_app, Hk. cbn [contains orb].
  rewrite decide_False by (intros <-; by apply Hn).
  rewrite contains_app, Hv. cbn [orb].
  destruct l as [|kv l]; [done|]. cbn [contains].
  by rewrite decide_False by (intros <-; by apply Hp).
Qed.

Lemma concat_pairs_inj (l l' : list (string * string)) :
  Forall (fun kv => contains nameSplitter kv.1 = false ∧
                    contains pairSplitter kv.2 = false) l →
  Forall (fun kv => contains nameSplitter kv.1 = false ∧
                    contains pairSplitter kv.2 = false) l' →
  String.concat "," (pair_string <$> l) = String.concat "," (pair_string <$> l') →
  l = l'.
Proof.
  intros Hl. revert l'.
  induction Hl as [|[k v] l [Hk Hv] Hl IH]; intros l' Hl' E.
  - destruct Hl' as [|[k' v'] l' _ _]; [done|].
    rewrite concat_pairs_cons in E. destruct k'; discriminate E.
  - destruct Hl' as [|[k' v'] l' [Hk' Hv'] Hl'].
    { rewrite concat_pairs_cons in E. destruct k; discriminate E. }
    rewrite !concat_pairs_cons in E. cbn [fst snd] in *.
    apply (split_first nameSplitter) in E as [-> E]; [|done..].
    destruct l as [|kv l], l' as [|kv' l'].
    + rewrite !str_app_nil_r in E. by subst.
    + rewrite str_app_nil_r in E. subst v.
      by rewrite contains_app, contains_cons_eq, orb_true_r in Hv.
    + rewrite str_app_nil_r in E. subst v'.
      by rewrite contains_app, contains_cons_eq, orb_true_r in Hv'.
    + apply (split_first pairSplitter) in E as [-> E]; [|done..].
      f_equal. by apply IH.
Qed.

Lemma KeyMap_spec_inj p1 p2 (m1 m2 : gmap string string) :
  tags_ok m1 → tags_ok m2 →
  KeyMap_spec p1 m1 = KeyMap_spec p2 m2 → p1 = p2 ∧ m1 = m2.
Proof.
  intros H1%sorted_pairs_ok H2%sorted_pairs_ok. rewrite !KeyMap_spec_pairs.
  set (e1 := String.concat "," (pair_string <$> sorted_pairs m1)).
  set (e2 := String.concat "," (pair_string <$> sorted_pairs m2)).
  assert (C1 : contains prefixSplitter e1 = false).
  { apply contains_concat_pairs; [done..|].
    eapply Forall_impl; [exact H1|]. intros kv [(_&_&?) (_&_&?)]. done. }
  assert (C2 : contains prefixSplitter e2 = false).
  { apply contains_concat_pairs; [done..|].
    eapply Forall_impl; [exact H2|]. intros kv [(_&_&?) (_&_&?)]. done. }
  assert (I : e1 = e2 → m1 = m2).
  { intros E. apply concat_pairs_inj in E.
    - by rewrite <- (sorted_pairs_to_map m1), <- (sorted_pairs_to_map m2), E.
    - eapply Forall_impl; [exact H1|]. intros kv [(?&_&_) (_&?&_)]. done.
    - eapply Forall_impl; [exact H2|]. intros kv [(?&_&_) (_&?&_)]. done. }
  intros E. do 2 case_decide; subst.
  - split; [done|]. by apply I.
  - change ("" +:+ e1) with e1 in E. rewrite E in C1.
    by rewrite str_app_char, contains_app, contains_cons_eq, orb_true_r in C1.
  - change ("" +:+ e2) with e2 in E. rewrite <- E in C2.
    by rewrite str_app_char, contains_app, contains_cons_eq, orb_true_r in C2.
  - rewrite !str_app_char in E.
    apply (split_last prefixSplitter) in E as [-> E]; [|done..].
    split; [done|]. by apply I.
Qed.

(** *** Determinism and injectivity of [KeyMap] *)

Lemma range_ab : range_of tags_ab ["b"; "a"] ∧ range_of tags_ba ["a"; "b"] ∧ range_of tags_a ["a"].
Proof.
  unfold range_of.
  replace ((map_to_list tags_ab).*1) with ["a"; "b"] by (by vm_compute).
  replace ((map_to_list tags_ba).*1) with ["a"; "b"] by (by vm_compute).
  replace ((map_to_list tags_a).*1) with ["a"] by (by vm_compute).
  repeat split; try done. apply perm_swap.
Qed.

Lemma tags_ok_examples : tags_ok tags_ab ∧ tags_ok tags_ba ∧ tags_ok tags_a.
Proof. split; [|split]; apply (bool_decide_unpack _); vm_compute; exact I. Qed.

Lemma KeyMap_calls_ok calls db :
  Forall valid_call calls → pool_ok db →
  ∃ db', KeyMap_calls calls db = Some db' ∧ pool_ok db'.
Proof.
  intros Hc. revert db. induction Hc as [|c calls Hv Hc IH]; intros db Hdb.
  - by exists db.
  - simpl. destruct (KeyMap_refines (kc_prefix c) (kc_tags c) (kc_range c) db)
      as (db1 & -> & Hdb1); [done..|].
    simpl. by apply IH.
Qed.

Lemma KeyMap_spec_examples prefix :
  KeyMap_spec prefix tags_ab = KeyMap_spec prefix tags_ba ∧
  KeyMap_spec prefix tags_ab ≠ KeyMap_spec prefix tags_a.
Proof.
  split.
  - assert (E : tags_ab = tags_ba)
      by (unfold tags_ab, tags_ba; by apply insert_insert_ne).
    by rewrite E.
  - unfold KeyMap_spec. intros E%(inj (String.app _)). by vm_compute in E.
Qed.

(** C3. [KeyMap] is a function of the prefix and the tag set alone:
    whatever calls came before on the shared pool (they leave every
    pooled buffer empty and every pooled key slice at length 0) and in
    whatever order the map is ranged over, the call returns the string
    the stated algorithm describes ([KeyMap_spec]): the sorted keys, the
    prefix and its separator when the prefix is not empty, the
    [key=value] pairs joined by the pair separator. In particular the
    tag sets [{"b":"2","a":"1"}] and [{"a":"1","b":"2"}] give the same
    key, which differs from the key of [{"a":"1"}]. *)
Theorem KeyMap_deterministic (prefix : string) (tags : gmap string string)
    (range1 range2 : list string) (calls1 calls2 : list keymap_call) :
  Forall valid_call calls1 → Forall valid_call calls2 →
  range_of tags range1 → range_of tags range2 →
  ∃ db1 db2,
    KeyMap_calls calls1 keyDB = Some db1 ∧
    KeyMap_calls calls2 keyDB = Some db2 ∧
    pool_ok db1 ∧ pool_ok db2 ∧
    fst <$> KeyMap prefix tags range1 db1 = Some (KeyMap_spec prefix tags) ∧
    fst <$> KeyMap prefix tags range2 db2 = Some (KeyMap_spec prefix tags) ∧
    fst <$> KeyMap prefix tags_ab ["b"; "a"] db1
      = fst <$> KeyMap prefix tags_ba ["a"; "b"] db2 ∧
    fst <$> KeyMap prefix tags_ab ["b"; "a"] db1
      ≠ fst <$> KeyMap prefix tags_a ["a"] db2.
Proof.
  intros Hc1 Hc2 Hr1 Hr2.
  destruct (KeyMap_calls_ok calls1 keyDB Hc1 keyDB_ok) as (db1 & E1 & Hdb1).
  destruct (KeyMap_calls_ok calls2 keyDB Hc2 keyDB_ok) as (db2 & E2 & Hdb2).
  exists db1, db2. split_and!; try done.
  - by destruct (KeyMap_refines prefix tags range1 db1) as (? & -> & _).
  - by destruct (KeyMap_refines prefix tags range2 db2) as (? & -> & _).
  - destruct range_ab as (Ha & Hb & _).
    destruct (KeyMap_refines prefix tags_ab ["b"; "a"] db1) as (? & -> & _); [done..|].
    destruct (KeyMap_refines prefix tags_ba ["a"; "b"] db2) as (? & -> & _); [done..|].
    simpl. by rewrite (proj1 (KeyMap_spec_examples prefix)).
  - destruct range_ab as (Ha & _ & Hb).
    destruct (KeyMap_refines prefix tags_ab ["b"; "a"] db1) as (? & -> & _); [done..|].
    destruct (KeyMap_refines prefix tags_a ["a"] db2) as (? & -> & _); [done..|].
    simpl. intros [= E]. by apply (KeyMap_spec_examples prefix).
Qed.

(** C4. On the expected alphabet [KeyMap] does not collide: when no tag
    key and no tag value contains ['='], [','] or ['+'], two calls whose
    (prefix, tag set) pairs differ return different keys. *)
Theorem KeyMap_injective (p1 p2 : string) (m1 m2 : gmap string string)
    (range1 range2 : list string) (db1 db2 : itemDB) :
  pool_ok db1 → pool_ok db2 →
  range_of m1 range1 → range_of m2 range2 →
  tags_ok m1 → tags_ok m2 →
  (p1, m1) ≠ (p2, m2) →
  ∃ k1 k2,
    fst <$> KeyMap p1 m1 range1 db1 = Some k1 ∧
    fst <$> KeyMap p2 m2 range2 db2 = Some k2 ∧
    k1 ≠ k2.
Proof.
  intros Hdb1 Hdb2 Hr1 Hr2 Hm1 Hm2 Hne.
  destruct (KeyMap_refines p1 m1 range1 db1) as (? & -> & _); [done..|].
  destruct (KeyMap_refines p2 m2 range2 db2) as (? & -> & _); [done..|].
  eexists _, _. split_and!; [done..|].
  intros E. apply KeyMap_spec_inj in E as [-> ->]; done.
Qed.

End keymap_facts.

(** ** The scope tree *)

Section scope_facts.
Import Keymap Scope.
Local Open Scope nat_scope.

Context (map_range : ∀ A : Type, gmap string A → list (string * A)).

Implicit Types (w : world) (sc : scope) (s p : nat).

(** *** Steps that touch no identity *)

Lemma touch_refl w : touch w w.
Proof. by split. Qed.

Lemma touch_trans w1 w2 w3 : touch w1 w2 → touch w2 w3 → touch w1 w3.
Proof.
  intros [L1 I1 S1 R1] [L2 I2 S2 R2]. split; intros; congruence.
Qed.

Lemma touch_store s sc w :
  ident sc = ident (heap w !!! s) → status sc = status (heap w !!! s) →
  touch w (store s sc w).
Proof.
  intros Hi Hs. split; simpl; try done.
  - apply length_insert.
  - intros p. rewrite list_lookup_total_insert. by case_decide as E; [destruct E as [<- _]|].
  - intros p. rewrite list_lookup_total_insert. by case_decide as E; [destruct E as [<- _]|].
Qed.

Lemma touch_emit out w : touch w (emit out w).
Proof. by split. Qed.

Lemma touch_foldl {A} (f : world → A → world) (l : list A) w :
  (∀ w x, touch w (f w x)) → touch w (foldl f w l).
Proof.
  intros Hf. revert w. induction l as [|x l IH]; intros w; simpl.
  - apply touch_refl.
  - eapply touch_trans; [apply Hf|apply IH].
Qed.

Lemma touch_report ss r w : touch w (report map_range ss r w).
Proof.
  unfold report. destruct (report_counters _ _) as [out_c cs].
  destruct (report_gauges _ _) as [out_g gs].
  eapply touch_trans; [|apply touch_emit]. by apply touch_store.
Qed.

Lemma touch_reportRegistryWithLock s w :
  touch w (reportRegistryWithLock map_range s w).
Proof.
  unfold reportRegistryWithLock. destruct (reporter _); [|apply touch_refl].
  apply touch_foldl. intros. apply touch_report.
Qed.

Lemma touch_reportLoopRun s w : touch w (reportLoopRun map_range s w).
Proof.
  unfold reportLoopRun. destruct (closed _); [apply touch_refl|].
  apply touch_reportRegistryWithLock.
Qed.

Lemma touch_tick w : touch w (tick map_range w).
Proof. unfold tick. destruct (loop w); [apply touch_reportLoopRun|apply touch_refl]. Qed.

Lemma touch_Counter s name w : touch w (Counter s name w).
Proof.
  unfold Counter, counter. destruct (_ !! name); [apply touch_refl|].
  by apply touch_store.
Qed.

Lemma touch_Gauge s name w : touch w (Gauge s name w).
Proof.
  unfold Gauge, gauge. destruct (_ !! name); [apply touch_refl|].
  by apply touch_store.
Qed.

Lemma touch_Inc s name v w : touch w (Inc s name v w).
Proof. by apply touch_store. Qed.

Lemma touch_Update s name v w : touch w (Update s name v w).
Proof. by apply touch_store. Qed.

Lemma ident_key_of sc sc' : ident sc = ident sc' → key_of sc = key_of sc'.
Proof. unfold ident, key_of. by intros [= -> -> _ _]. Qed.

Lemma touch_wf w w' : touch w w' → wf w → wf w'.
Proof.
  intros [L I S R] [W1 W2 W3 W4]. split.
  - intros key p Hk. rewrite R in Hk. destruct (W1 key p Hk) as [Hp Hkey].
    split; [lia|]. by rewrite (ident_key_of _ _ (I p)).
  - intros p Hp. rewrite R, (ident_key_of _ _ (I p)). apply W2. lia.
  - lia.
  - by rewrite S.
Qed.

Lemma touch_persist w w' : touch w w' → persist w w'.
Proof.
  intros [L I S R]. split.
  - lia.
  - intros. apply I.
  - intros key p. by rewrite R.
  - by rewrite S.
Qed.

Lemma persist_refl w : persist w w.
Proof. by split. Qed.

Lemma persist_trans w1 w2 w3 : persist w1 w2 → persist w2 w3 → persist w1 w3.
Proof.
  intros [L1 I1 R1 C1] [L2 I2 R2 C2]. split.
  - lia.
  - intros p Hp. rewrite I2 by lia. by apply I1.
  - intros key p Hk. by apply R2, R1.
  - intros Hc. by apply C2, C1.
Qed.

(** *** Changing the status of a scope *)

Lemma ident_set_status st sc : ident (set_status st sc) = ident sc.
Proof. done. Qed.

Lemma lookup_store s sc w p :
  heap (store s sc w) !!! p =
    if decide (s = p ∧ s < length (heap w)) then sc else heap w !!! p.
Proof. apply list_lookup_total_insert. Qed.

Lemma wf_store_status s st sc w :
  wf w → ident sc = ident (heap w !!! s) → closed st = true →
  wf (store s (set_status st sc) w).
Proof.
  intros [W1 W2 W3 W4] Hi Hc.
  assert (K : ∀ p, key_of (heap (store s (set_status st sc) w) !!! p)
                   = key_of (heap w !!! p)).
  { intros p. rewrite lookup_store. case_decide as E; [|done].
    destruct E as [<- _]. apply ident_key_of. by rewrite ident_set_status. }
  split; simpl.
  - intros key p Hk. destruct (W1 key p Hk) as [Hp Hkey].
    rewrite length_insert. split; [done|].
    by rewrite <- Hkey, <- (K p).
  - intros p. rewrite length_insert. intros Hp.
    pose proof (K p) as Kp. simpl in Kp. rewrite Kp. by apply W2.
  - by rewrite length_insert.
  - pose proof (lookup_store s (set_status st sc) w root) as L. simpl in L.
    rewrite L. case_decide; simpl; [congruence|done].
Qed.

Lemma persist_store_status s st sc w :
  ident sc = ident (heap w !!! s) → closed st = true →
  persist w (store s (set_status st sc) w).
Proof.
  intros Hi Hc. split; simpl.
  - by rewrite length_insert.
  - intros p Hp. pose proof (lookup_store s (set_status st sc) w p) as L.
    simpl in L. rewrite L. case_decide as E; [|done]. by destruct E as [<- _].
  - done.
  - pose proof (lookup_store s (set_status st sc) w root) as L. simpl in L.
    rewrite L. by case_decide.
Qed.

(** *** [Close] *)

Lemma Close_spec w :
  wf w →
  wf (Close map_range root w).2 ∧
  persist w (Close map_range root w).2 ∧
  closed (status (heap (Close map_range root w).2 !!! root)) = true ∧
  (Close map_range root w).1 ≠ Panicked.
Proof.
  intros Hw. unfold Close.
  destruct (closed (status (heap w !!! root))) eqn:Hc.
  { simpl. split_and!; [done|apply persist_refl|done|done]. }
  rewrite (wf_quit w Hw Hc).
  set (sc := heap w !!! root).
  set (w1 := store root (set_status (mkStatus true ChanOpen) sc) w).
  set (w2 := store root (set_status (mkStatus true ChanClosed) sc) w1).
  set (w3 := reportRegistryWithLock map_range root w2).
  assert (H1 : heap w1 !!! root = set_status (mkStatus true ChanOpen) sc).
  { unfold w1. rewrite lookup_store. rewrite decide_True; [done|].
    split; [done|apply (wf_root w Hw)]. }
  assert (Hw1 : wf w1) by (by apply wf_store_status).
  assert (Hw2 : wf w2) by (apply wf_store_status; [done| by rewrite H1 |done]).
  assert (P1 : persist w w1) by (by apply persist_store_status).
  assert (P2 : persist w1 w2) by (apply persist_store_status; [by rewrite H1|done]).
  assert (T3 : touch w2 w3) by apply touch_reportRegistryWithLock.
  assert (C2 : status (heap w2 !!! root) = mkStatus true ChanClosed).
  { unfold w2. rewrite lookup_store. rewrite decide_True; [done|].
    split; [done|apply (wf_root w1 Hw1)]. }
  assert (P3 : persist w w3).
  { eapply persist_trans; [exact P1|]. eapply persist_trans; [exact P2|].
    by apply touch_persist. }
  assert (C3 : closed (status (heap w3 !!! root)) = true).
  { by rewrite (t_status _ _ T3), C2. }
  destruct (reporter sc) as [[[e|]]|]; simpl.
  - split_and!; try done.
    + eapply touch_wf; [apply touch_emit|]. by eapply touch_wf.
    + eapply persist_trans; [exact P3|]. apply touch_persist, touch_emit.
  - split_and!; try done. by eapply touch_wf.
  - split_and!; try done. by eapply touch_wf.
Qed.

(** *** Derivation *)

Lemma newSubscope_spec s pre tgs w :
  wf w →
  let r := newSubscope s pre tgs (KeyMap_spec pre tgs) w in
  wf r.2 ∧ persist w r.2 ∧
  subscopes r.2 !! KeyMap_spec pre tgs = Some r.1 ∧
  (∀ p, p < length (heap w) → status (heap r.2 !!! p) = status (heap w !!! p)) ∧
  (subscopes w !! KeyMap_spec pre tgs = Some r.1 → r.2 = w).
Proof.
  intros Hw. unfold newSubscope.
  destruct (subscopes w !! KeyMap_spec pre tgs) as [q|] eqn:Hk; simpl.
  { split_and!; [done|apply persist_refl|done|done|done]. }
  destruct Hw as [W1 W2 W3 W4].
  set (sub := mkScope pre _ _ tgs _ ∅ ∅).
  assert (Old : ∀ p, p < length (heap w) → (heap w ++ [sub]) !!! p = heap w !!! p).
  { intros p Hp. by apply lookup_total_app_l. }
  assert (New : (heap w ++ [sub]) !!! length (heap w) = sub).
  { by apply list_lookup_total_middle. }
  split_and!.
  - split; simpl.
    + intros key p. rewrite lookup_insert. case_decide as E.
      * intros [= <-]. rewrite length_app, New. simpl. split; [lia|by subst].
      * intros Hp. destruct (W1 key p Hp) as [Hlt Hkey].
        rewrite length_app, Old by done. simpl. split; [lia|done].
    + intros p. rewrite length_app. simpl. intros Hp.
      destruct (decide (p = length (heap w))) as [->|Hne].
      * rewrite New. by rewrite lookup_insert_eq.
      * rewrite Old by lia. rewrite lookup_insert_ne; [apply W2; lia|].
        intros E. specialize (W2 p ltac:(lia)). rewrite <- E in W2. congruence.
    + rewrite length_app. unfold root in *. lia.
    + rewrite Old by done. done.
  - split; simpl.
    + rewrite length_app. lia.
    + intros p Hp. by rewrite Old.
    + intros key p Hp. rewrite lookup_insert_ne; [done|congruence].
    + by rewrite Old.
  - by rewrite lookup_insert_eq.
  - intros p Hp. by rewrite Old.
  - intros Hq. congruence.
Qed.

Lemma subscope_spec s pre tgs w :
  wf w →
  let key := KeyMap_spec pre (mergeRightTags (tags (heap w !!! s)) tgs) in
  let r := subscope s pre tgs w in
  wf r.2 ∧ persist w r.2 ∧
  subscopes r.2 !! key = Some r.1 ∧
  (∀ p, p < length (heap w) → status (heap r.2 !!! p) = status (heap w !!! p)) ∧
  (subscopes w !! key = Some r.1 → r.2 = w).
Proof.
  intros Hw. unfold subscope. simpl.
  pose proof (newSubscope_spec s pre
                (mergeRightTags (tags (heap w !!! s)) tgs) w Hw) as N.
  simpl in N.
  destruct (subscopes w !! KeyMap_spec pre _) as [q|] eqn:Hk.
  - simpl. split_and!; [done|apply persist_refl|done|done|done].
  - exact N.
Qed.

(** *** Every step keeps the invariants *)

Lemma touch_loop_quit w : touch w (loop_quit w).
Proof.
  unfold loop_quit. destruct (loop w); [|apply touch_refl].
  destruct (quit _); try apply touch_refl. by split.
Qed.

Lemma step_spec w o :
  wf w → wf (step map_range w o) ∧ persist w (step map_range w o).
Proof.
  intros Hw.
  assert (T : ∀ w', touch w w' → wf w' ∧ persist w w').
  { intros w' T. split; [by eapply touch_wf|by apply touch_persist]. }
  destruct o as [s name|s name|s name v|s name v|s tgs|s name|s pre tgs|s|s| | |];
    simpl; try case_decide; try (split; [done|apply persist_refl]).
  - apply T, touch_Counter.
  - apply T, touch_Gauge.
  - apply T. eapply touch_trans; [apply touch_Counter|apply touch_Inc].
  - apply T. eapply touch_trans; [apply touch_Gauge|apply touch_Update].
  - unfold Tagged. by destruct (subscope_spec s (prefix (heap w !!! s)) (copyMap tgs) w Hw) as (?&?&_).
  - unfold SubScope. by destruct (subscope_spec s (fullyQualifiedName (heap w !!! s) name) ∅ w Hw) as (?&?&_).
  - by destruct (newSubscope_spec s pre tgs w Hw) as (?&?&_).
  - apply T, touch_reportLoopRun.
  - apply T, touch_tick.
  - apply T, touch_loop_quit.
  - by destruct (Close_spec w Hw) as (?&?&_).
Qed.

Lemma run_spec ops w :
  wf w → wf (run map_range ops w) ∧ persist w (run map_range ops w).
Proof.
  revert w. induction ops as [|o ops IH]; intros w Hw; simpl.
  - split; [done|apply persist_refl].
  - destruct (step_spec w o Hw) as [Hw1 P1].
    destruct (IH _ Hw1) as [Hw2 P2]. split; [done|].
    by eapply persist_trans.
Qed.

Lemma newRootScope_wf opts reportInterval : wf (newRootScope opts reportInterval).
Proof.
  unfold newRootScope. split; simpl.
  - intros key p [<- <-]%lookup_singleton_Some. split; [lia|done].
  - intros p Hp. assert (p = 0) as -> by lia. simpl. apply lookup_singleton_eq.
  - unfold root. lia.
  - done.
Qed.

Lemma reachable_wf w : reachable map_range w → wf w.
Proof.
  intros (opts & i & ops & ->). apply run_spec, newRootScope_wf.
Qed.

Lemma reachable_run ops w :
  reachable map_range w → reachable map_range (run map_range ops w).
Proof.
  intros (opts & i & ops0 & ->). exists opts, i, (ops0 ++ ops).
  unfold run. by rewrite foldl_app.
Qed.

(** *** Derivation through the registry *)

Lemma copyMap_id (m : gmap string string) : copyMap m = m.
Proof.
  unfold copyMap.
  apply (map_fold_weak_ind (fun r m => r = m)); [done|].
  intros i x m' r _ ->. done.
Qed.

Lemma ident_fullyQualifiedName sc sc' name :
  ident sc = ident sc' → fullyQualifiedName sc name = fullyQualifiedName sc' name.
Proof. unfold ident, fullyQualifiedName. by intros [= -> _ -> _]. Qed.

Lemma subscope_hit s pre tgs w q :
  subscopes w !! KeyMap_spec pre (mergeRightTags (tags (heap w !!! s)) tgs) = Some q →
  subscope s pre tgs w = (q, w).
Proof. intros H. unfold subscope. simpl. by rewrite H. Qed.

Lemma same_identity_same_scope w p1 p2 :
  wf w → p1 < length (heap w) → p2 < length (heap w) →
  prefix (heap w !!! p1) = prefix (heap w !!! p2) →
  tags (heap w !!! p1) = tags (heap w !!! p2) →
  p1 = p2.
Proof.
  intros Hw H1 H2 Hp Ht.
  pose proof (wf_registered w Hw p1 H1) as R1.
  pose proof (wf_registered w Hw p2 H2) as R2.
  unfold key_of in *. rewrite Hp, Ht in R1. congruence.
Qed.

Lemma subscope_again s pre1 pre2 tgs ops w :
  wf w → s < length (heap w) →
  (∀ sc, ident sc = ident (heap w !!! s) → pre2 sc = pre1) →
  let r := subscope s pre1 tgs w in
  let w2 := run map_range ops r.2 in
  subscope s (pre2 (heap w2 !!! s)) tgs w2 = (r.1, w2).
Proof.
  intros Hw Hs Hpre r w2.
  destruct (subscope_spec s pre1 tgs w Hw) as (Hw1 & P1 & Hk & _).
  fold r in Hw1, P1, Hk.
  destruct (run_spec ops r.2 Hw1) as [Hw2 P2]. fold w2 in Hw2, P2.
  assert (I : ident (heap w2 !!! s) = ident (heap w !!! s)).
  { rewrite (p_ident _ _ P2) by (pose proof (p_len _ _ P1); lia).
    by apply (p_ident _ _ P1). }
  apply subscope_hit. rewrite (Hpre _ I).
  assert (tags (heap w2 !!! s) = tags (heap w !!! s)) as ->
    by (unfold ident in I; congruence).
  by apply (p_registry _ _ P2).
Qed.

(** C6. In a tree reached by any calls, two scopes with the same prefix
    and the same tag set are one object; deriving [SubScope(name)] or
    [Tagged(tags)] from them, again, after any further calls, returns
    the object the first derivation returned and creates nothing; and
    [Tagged({})] returns the scope it is called on. *)
Theorem derivation_idempotent (w : world) (p1 p2 : nat) (name : string)
    (tgs : gmap string string) (ops : list op) :
  reachable map_range w →
  p1 < length (heap w) → p2 < length (heap w) →
  prefix (heap w !!! p1) = prefix (heap w !!! p2) →
  tags (heap w !!! p1) = tags (heap w !!! p2) →
  p1 = p2 ∧
  (let r := SubScope p1 name w in
   let w2 := run map_range ops r.2 in
   SubScope p2 name w2 = (r.1, w2)) ∧
  (let r := Tagged p1 tgs w in
   let w2 := run map_range ops r.2 in
   Tagged p2 tgs w2 = (r.1, w2)) ∧
  Tagged p1 ∅ w = (p1, w).
Proof.
  intros Hw%reachable_wf H1 H2 Hp Ht.
  assert (p1 = p2) as <- by (by eapply same_identity_same_scope).
  split_and!; [done|..].
  - unfold SubScope.
    apply (subscope_again p1 _ (fun sc => fullyQualifiedName sc name)); [done..|].
    intros sc I. by apply ident_fullyQualifiedName.
  - unfold Tagged.
    apply (subscope_again p1 _ (fun sc => prefix sc)); [done..|].
    intros sc I. unfold ident in I. congruence.
  - unfold Tagged. apply subscope_hit.
    unfold copyMap. rewrite map_fold_empty. unfold mergeRightTags.
    rewrite decide_True by apply map_size_empty.
    by apply (wf_registered w Hw).
Qed.

(** *** Shutdown *)

Lemma store_store s sc sc' w : store s sc (store s sc' w) = store s sc w.
Proof. unfold store. simpl. by rewrite list_insert_insert_eq. Qed.

Lemma emit_nil w : emit [] w = w.
Proof. unfold emit. rewrite app_nil_r. by destruct w. Qed.

Lemma Close_closed w :
  closed (status (heap w !!! root)) = true →
  Close map_range root w = (Returned None, w).
Proof. intros H. unfold Close. by rewrite H. Qed.

Lemma Close_open w :
  wf w → closed (status (heap w !!! root)) = false →
  Close map_range root w =
    (Returned (closer_error (heap w !!! root)),
     emit (closer_calls (heap w !!! root))
          (reportRegistryWithLock map_range root (mark_closed w))).
Proof.
  intros Hw Hc. unfold Close. rewrite Hc, (wf_quit w Hw Hc).
  unfold mark_closed, closer_error, closer_calls. rewrite store_store.
  destruct (reporter (heap w !!! root)) as [[[e|]]|]; by rewrite ?emit_nil.
Qed.

Lemma run_closed ops w :
  wf w → closed (status (heap w !!! root)) = true →
  closed (status (heap (run map_range ops w) !!! root)) = true.
Proof. intros Hw Hc. destruct (run_spec ops w Hw) as [_ P]. by apply (p_closed _ _ P). Qed.


(** C10. Once [Close] has returned on the root, in every state the tree
    reaches afterwards a [Report()] on the root and a tick of the report
    loop see the closed flag and return at once: the tree and the log of
    reporter calls stay as they are. *)
Theorem closed_root_reports_nothing (w : world) (ops : list op) :
  reachable map_range w →
  let w1 := (Close map_range root w).2 in
  let w2 := run map_range ops w1 in
  closed (status (heap w2 !!! root)) = true ∧
  Report map_range root w2 = w2 ∧
  tick map_range w2 = w2 ∧
  calls (Report map_range root w2) = calls w2 ∧
  calls (tick map_range w2) = calls w2.
Proof.
  intros Hw%reachable_wf w1 w2.
  destruct (Close_spec w Hw) as (Hw1 & _ & C1 & _). fold w1 in Hw1, C1.
  assert (C2 : closed (status (heap w2 !!! root)) = true) by (by apply run_closed).
  assert (R : Report map_range root w2 = w2).
  { unfold Report, reportLoopRun. by rewrite C2. }
  assert (T : tick map_range w2 = w2).
  { unfold tick. destruct (loop w2); [exact R|done]. }
  by rewrite R, T.
Qed.

(** *** Flush passes *)

Lemma flushes_app l1 l2 : flushes (l1 ++ l2) = flushes l1 + flushes l2.
Proof. unfold flushes. by rewrite filter_app, length_app. Qed.

Lemma flushes_concat_blocks blocks :
  Forall flush_block blocks → flushes (concat blocks) = length blocks.
Proof.
  induction 1 as [|b blocks (m & -> & Hm) _ IH]; [done|].
  simpl. rewrite !flushes_app, Hm, IH. done.
Qed.

Lemma report_counters_quiet sc : flushes (report_counters map_range sc).1 = 0.
Proof.
  unfold report_counters.
  generalize (map_range _ (counters sc)). intros l.
  assert (G : ∀ acc : list call * gmap string Counter.counter,
            flushes acc.1 = 0 →
            flushes (foldl (fun acc entry =>
              let '(out, c') :=
                Counter.report (fullyQualifiedName sc entry.1) (tags sc) entry.2 in
              (acc.1 ++ out, <[entry.1 := c']> acc.2)) acc l).1 = 0).
  { induction l as [|e l IH]; intros acc Ha; simpl; [done|].
    apply IH. unfold Counter.report.
    destruct (Counter.value e.2) as [d c']. destruct (d =? 0)%Z; simpl.
    - by rewrite app_nil_r.
    - by rewrite flushes_app, Ha. }
  by apply G.
Qed.

Lemma report_gauges_quiet sc : flushes (report_gauges map_range sc).1 = 0.
Proof.
  unfold report_gauges.
  generalize (map_range _ (gauges sc)). intros l.
  assert (G : ∀ acc : list call * gmap string Gauge.gauge,
            flushes acc.1 = 0 →
            flushes (foldl (fun acc entry =>
              let '(out, g') :=
                Gauge.report (fullyQualifiedName sc entry.1) (tags sc) entry.2 in
              (acc.1 ++ out, <[entry.1 := g']> acc.2)) acc l).1 = 0).
  { induction l as [|e l IH]; intros acc Ha; simpl; [done|].
    apply IH. unfold Gauge.report. destruct (Gauge.updated e.2 =? 1)%Z; simpl.
    - by rewrite flushes_app, Ha.
    - by rewrite app_nil_r. }
  by apply G.
Qed.

Lemma report_block ss r w :
  ∃ b, calls (report map_range ss r w) = calls w ++ b ∧ flush_block b.
Proof.
  unfold report.
  pose proof (report_counters_quiet (heap w !!! ss)) as Qc.
  pose proof (report_gauges_quiet (heap w !!! ss)) as Qg.
  destruct (report_counters _ _) as [out_c cs].
  destruct (report_gauges _ _) as [out_g gs]. simpl in *.
  exists (out_c ++ out_g ++ [Flush]). split; [done|].
  exists (out_c ++ out_g). split; [by rewrite <- app_assoc|].
  by rewrite flushes_app, Qc, Qg.
Qed.

Lemma pass_blocks r (l : list (string * nat)) w :
  ∃ blocks,
    calls (foldl (fun w entry => report map_range entry.2 r w) w l)
      = calls w ++ concat blocks ∧
    length blocks = length l ∧ Forall flush_block blocks.
Proof.
  revert w. induction l as [|e l IH]; intros w; simpl.
  - exists []. by rewrite app_nil_r.
  - destruct (report_block e.2 r w) as (b & Eb & Hb).
    destruct (IH (report map_range e.2 r w)) as (blocks & E & L & F).
    exists (b :: blocks). split_and!.
    + rewrite E, Eb. simpl. by rewrite <- app_assoc.
    + simpl. by rewrite L.
    + by constructor.
Qed.

Hypothesis map_range_perm :
  ∀ (A : Type) (m : gmap string A), map_range A m ≡ₚ map_to_list m.

(** C2, as the code has it. A flush pass, [reportRegistryWithLock],
    makes the reporter receive one block of calls per scope of the
    registry: the counter deltas and dirty gauges of that scope, then one
    [Flush]. So a pass invokes [Flush] as many times as there are
    registered scopes (and not at all without a reporter), exactly once
    when the root is the only scope. A [Report()] and a tick on a root
    that is not closed are such a pass. *)
Theorem flush_once_per_scope (w : world) (s : nat) :
  (∃ blocks,
     calls (reportRegistryWithLock map_range s w) = calls w ++ concat blocks ∧
     Forall flush_block blocks ∧
     length blocks = visited s w) ∧
  flushes (calls (reportRegistryWithLock map_range s w)) =
    flushes (calls w) + visited s w ∧
  (if closed (status (heap w !!! s)) then Report map_range s w = w
   else Report map_range s w = reportRegistryWithLock map_range s w) ∧
  (if loop w && negb (closed (status (heap w !!! root)))
   then tick map_range w = reportRegistryWithLock map_range root w
   else tick map_range w = w) ∧
  (reachable map_range w → closed (status (heap w !!! root)) = false →
   (Close map_range root w).2 =
     emit (closer_calls (heap w !!! root))
          (reportRegistryWithLock map_range root (mark_closed w))).
Proof.
  assert (B : ∃ blocks,
     calls (reportRegistryWithLock map_range s w) = calls w ++ concat blocks ∧
     Forall flush_block blocks ∧
     length blocks = visited s w).
  { unfold reportRegistryWithLock, visited. destruct (reporter (heap w !!! s)) as [r|].
    - destruct (pass_blocks r (map_range _ (subscopes w)) w) as (blocks & E & L & F).
      exists blocks. split_and!; [done..|].
      by rewrite L, map_range_perm, length_map_to_list.
    - exists []. by rewrite app_nil_r. }
  split_and!.
  - exact B.
  - destruct B as (blocks & -> & F & <-).
    by rewrite flushes_app, flushes_concat_blocks.
  - unfold Report, reportLoopRun. by destruct (closed _).
  - unfold tick, reportLoopRun. destruct (loop w); [|done].
    by destruct (closed _).
  - intros Hw%reachable_wf Hc. by rewrite Close_open.
Qed.

End scope_facts.

(** One pass on a single root forwards the delta 3 and flushes once; a
    second pass with no further [Inc] forwards no counter. *)
Example three_polls_two_passes :
  let w1 := Scope.Report (fun A => map_to_list) Scope.root Scope.three_polls in
  let w2 := Scope.Report (fun A => map_to_list) Scope.root w1 in
  Scope.calls w1 = [ReportCounter "PollCount" ∅ 3; Flush] ∧
  Scope.calls w2 = [ReportCounter "PollCount" ∅ 3; Flush; Flush].
Proof. vm_compute. done. Qed.

(** C2 as stated fails: with the root and one scope derived from it in
    the registry, one [Report()] makes the reporter receive two [Flush]
    calls. *)
Lemma flush_twice_in_one_pass :
  let w := Scope.two_scopes in
  Scope.calls w = [] ∧
  size (Scope.subscopes w) = 2%nat ∧
  Scope.calls (Scope.Report (fun A => map_to_list) Scope.root w) = [Flush; Flush] ∧
  Scope.flushes (Scope.calls (Scope.Report (fun A => map_to_list) Scope.root w)) ≠ 1%nat.
Proof. vm_compute. repeat split; congruence. Qed.


(** C10 as stated fails: the closed flag is the root's own. After
    [Close] has returned on the root, an [Inc] on a counter of a scope
    derived by [Tagged] followed by a [Report()] on that scope runs a
    flush pass over the whole registry, and the reporter receives a
    [ReportCounter] and two [Flush] calls after the terminal flush. *)
Lemma derived_Report_after_Close :
  let w1 := (Scope.Close (fun A => map_to_list) Scope.root Scope.two_scopes).2 in
  let w2 := Scope.run (fun A => map_to_list) [Scope.OpInc 1 "n" 3] w1 in
  let w3 := Scope.Report (fun A => map_to_list) 1 w2 in
  (Scope.Close (fun A => map_to_list) Scope.root Scope.two_scopes).1
    = Scope.Returned None ∧
  Scope.closed (Scope.status (Scope.heap w2 !!! Scope.root)) = true ∧
  Scope.calls w2 = [Flush; Flush] ∧
  Scope.calls w3
    = [Flush; Flush; ReportCounter "n" {[ "a" := "1" ]} 3; Flush; Flush] ∧
  Scope.calls w3 ≠ Scope.calls w2.
Proof. vm_compute. repeat split; congruence. Qed.

(** ** Racing flush passes *)

Section race_facts.
Import Int64 Counter Race.

(** The three operations of a thread that runs alone are [value]. *)
Lemma solo_value (m : counter) :
  let '(t1, m1, l1) := thread_step Locked m true in
  let '(t2, m2, l2) := thread_step t1 m1 l1 in
  let '(t3, m3, l3) := thread_step t2 m2 l2 in
  (t3, m3) = (Returned (value m).1, (value m).2).
Proof.
  simpl. unfold value. destruct (prev m =? curr m); simpl; reflexivity.
Qed.

Example two_passes :
  let st := exec (Step <$> [0; 1; 0; 0; 1; 0; 0; 1; 1; 1; 1; 1])%nat
                 (init {| prev := 2; curr := 7 |} 2) in
  threads st = [Done 5; Done 0] ∧ mem st = {| prev := 7; curr := 7 |}.
Proof. vm_compute. done. Qed.

Lemma quiet_init c0 n : quiet_inv c0 (init c0 n).
Proof.
  split; simpl; try done; try (by left).
  all: intros; repeat match goal with
       | H : replicate _ _ !! _ = Some _ |- _ =>
           apply lookup_replicate in H; destruct H as [? _]
       end; by simplify_eq/=.
Qed.

Ltac lookups :=
  repeat match goal with
  | H : <[_ := _]> _ !! _ = Some _ |- _ =>
      apply list_lookup_insert_Some in H;
      destruct H as [(? & ? & ?) | (? & H)]
  end; simplify_eq/=.

(** The cases of a step: the fact comes from the state before the step,
    or the thread that steps holds the mutex and excludes the others, or
    the baseline has not moved yet and no thread has observed a delta. *)
Ltac settle Qc Qp Qf Qe Qv Ht :=
  first
  [ by eauto 6
  | match goal with
    | Hm : mutex _ = false |- _ => by pose proof (Qf ltac:(done) _ _ Ht)
    end
  | match goal with
    | Hm : mutex _ = false, H : threads _ !! _ = Some ?t,
      Hc : critical ?t = true |- _ => by rewrite (Qf ltac:(done) _ _ H) in Hc
    end
  | match goal with
    | Hn : _ ≠ _, H : threads _ !! _ = Some ?t |- critical ?t = false =>
        destruct (critical t) eqn:?; [|done];
        exfalso; apply Hn; by eapply (Qe _ _ _ _ Ht H)
    end
  | match goal with
    | Hn : _ ≠ _, H : threads _ !! _ = Some ?t |- _ =>
        by (exfalso; apply Hn; eapply (Qe _ _ _ _ Ht H))
    end
  | match goal with
    | H : threads _ !! _ = Some ?t, Ho : obs ?t = Some _ |- _ =>
        destruct (Qv _ _ _ H Ho) as [_ ?]; congruence
    end
  | (split; [by left|congruence])
  | (destruct Qp as [? | ?];
     [split; [right; congruence|congruence] | congruence]) ].

Lemma quiet_step c0 st i :
  quiet_inv c0 st → quiet_inv c0 (act st (Step i)).
Proof.
  intros Q. unfold act.
  destruct (threads st !! i) as [t|] eqn:Ht; [|done].
  destruct Q as [Qc Qp Qf Qe Qlc Qlp Qv Qo].
  destruct t as [| |c|c p|d|d]; simpl.
  - destruct (mutex st) eqn:Hm; simpl.
    + rewrite list_insert_id by done. by split.
    + split; simpl; try done; intros; lookups; settle Qc Qp Qf Qe Qv Ht.
  - split; simpl; try done; intros; lookups; settle Qc Qp Qf Qe Qv Ht.
  - split; simpl; try done; intros; lookups; settle Qc Qp Qf Qe Qv Ht.
  - destruct (Qlp _ _ _ Ht) as [-> ->].
    destruct (Z.eqb_spec (prev (mem st)) (curr c0)) as [E|E]; simpl.
    + split; simpl; try done; intros; lookups; settle Qc Qp Qf Qe Qv Ht.
    + split; simpl; try done; intros; lookups; settle Qc Qp Qf Qe Qv Ht.
  - split; simpl; try done; intros; lookups; settle Qc Qp Qf Qe Qv Ht.
  - rewrite list_insert_id by done. by split.
Qed.

Lemma quiet_exec c0 sched st :
  Forall is_step sched → quiet_inv c0 st → quiet_inv c0 (exec sched st).
Proof.
  intros Hs. revert st. induction Hs as [|a sched Ha _ IH]; intros st Q; [done|].
  simpl. apply IH. destruct a as [i|v]; [|done]. by apply quiet_step.
Qed.

(** *** Accounting, with producers running *)

Lemma obs_sum_insert ts i t t' :
  ts !! i = Some t →
  obs_sum (<[i := t']> ts) = obs_sum ts - default 0 (obs t) + default 0 (obs t').
Proof.
  revert i. induction ts as [|x ts IH]; intros [|i] H; simplify_eq/=.
  - lia.
  - rewrite (IH i) by done. lia.
Qed.

Lemma obs_sum_replicate n : obs_sum (replicate n Idle) = 0.
Proof. induction n as [|n IH]; simpl; [done|]. by rewrite IH. Qed.

Lemma acct_init c0 n : acct_inv c0 (init c0 n).
Proof.
  split; simpl.
  - intros _ i t [-> _]%lookup_replicate. done.
  - intros i j ti tj [-> _]%lookup_replicate. done.
  - intros i c p [? _]%lookup_replicate. done.
  - rewrite obs_sum_replicate. f_equal. lia.
Qed.

Ltac settle_acct Af Ae Ht :=
  first
  [ by eauto 6
  | match goal with
    | Hm : mutex _ = false |- _ => by pose proof (Af ltac:(done) _ _ Ht)
    end
  | match goal with
    | Hm : mutex _ = false, H : threads _ !! _ = Some ?t,
      Hc : critical ?t = true |- _ => by rewrite (Af ltac:(done) _ _ H) in Hc
    end
  | match goal with
    | Hn : _ ≠ _, H : threads _ !! _ = Some ?t |- critical ?t = false =>
        destruct (critical t) eqn:?; [|done];
        exfalso; apply Hn; by eapply (Ae _ _ _ _ Ht H)
    end
  | match goal with
    | Hn : _ ≠ _, H : threads _ !! _ = Some ?t |- _ =>
        by (exfalso; apply Hn; eapply (Ae _ _ _ _ Ht H))
    end ].

Lemma acct_act c0 st a : acct_inv c0 st → acct_inv c0 (act st a).
Proof.
  intros [Af Ae Al Aa]. destruct a as [i|v]; simpl.
  - destruct (threads st !! i) as [t|] eqn:Ht; [|done].
    destruct t as [| |c|c p|d|d]; simpl.
    + destruct (mutex st) eqn:Hm; simpl.
      * rewrite list_insert_id by done. by split.
      * split; simpl; [intros; lookups; settle_acct Af Ae Ht..|].
        rewrite (obs_sum_insert _ _ _ _ Ht). simpl. rewrite <- Aa. f_equal. lia.
    + split; simpl; [intros; lookups; settle_acct Af Ae Ht..|].
      rewrite (obs_sum_insert _ _ _ _ Ht). simpl. rewrite <- Aa. f_equal. lia.
    + split; simpl; [intros; lookups; settle_acct Af Ae Ht..|].
      rewrite (obs_sum_insert _ _ _ _ Ht). simpl. rewrite <- Aa. f_equal. lia.
    + pose proof (Al _ _ _ Ht) as ->.
      destruct (Z.eqb_spec (prev (mem st)) c) as [E|E]; simpl.
      * split; simpl; [intros; lookups; settle_acct Af Ae Ht..|].
        rewrite (obs_sum_insert _ _ _ _ Ht). simpl. rewrite <- Aa. f_equal. lia.
      * split; simpl; [intros; lookups; settle_acct Af Ae Ht..|].
        rewrite (obs_sum_insert _ _ _ _ Ht). simpl. rewrite <- Aa.
        unfold sub64.
        replace (obs_sum (threads st) - 0 + wrap64 (c - prev (mem st))
                 + (curr (mem st) - c))
          with (wrap64 (c - prev (mem st))
                + (obs_sum (threads st) + curr (mem st) - c)) by lia.
        rewrite wrap64_add_l. f_equal. lia.
    + split; simpl; [intros; lookups; settle_acct Af Ae Ht..|].
      rewrite (obs_sum_insert _ _ _ _ Ht). simpl. rewrite <- Aa. f_equal. lia.
    + rewrite list_insert_id by done. by split.
  - split; simpl; try done.
    unfold add64.
    replace (obs_sum (threads st) + (wrap64 (curr (mem st) + v) - prev (mem st)))
      with (wrap64 (curr (mem st) + v) + (obs_sum (threads st) - prev (mem st)))
      by lia.
    rewrite wrap64_add_l.
    replace (curr (mem st) + v + (obs_sum (threads st) - prev (mem st)))
      with ((obs_sum (threads st) + (curr (mem st) - prev (mem st))) + v) by lia.
    rewrite <- wrap64_add_l, Aa, wrap64_add_l. f_equal. lia.
Qed.

Lemma acct_exec c0 sched st : acct_inv c0 st → acct_inv c0 (exec sched st).
Proof.
  revert st. induction sched as [|a sched IH]; intros st A; [done|].
  simpl. by apply IH, acct_act.
Qed.

Lemma act_at m l ts a i t :
  ts !! i = Some t →
  act (mkSys m l ts a) (Step i) =
    let '(t', m', l') := thread_step t m l in mkSys m' l' (<[i := t']> ts) a.
Proof. intros H. simpl. by rewrite H. Qed.

(** A pass that runs alone, from the lock to the unlock, is [value]. *)
Lemma pass_alone st i :
  threads st !! i = Some Idle → mutex st = false →
  exec (replicate 5 (Step i)) st =
    mkSys (value (mem st)).2 false
          (<[i := Done (value (mem st)).1]> (threads st)) (added st).
Proof.
  intros Ht Hm. destruct st as [m l ts a]. simpl in Ht, Hm. subst l.
  assert (Hi : (i < length ts)%nat) by (by eapply lookup_lt_Some).
  assert (L : ∀ t, <[i := t]> ts !! i = Some t)
    by (intros; by apply list_lookup_insert_eq).
  unfold exec. cbn [replicate foldl].
  rewrite (act_at _ _ _ _ _ Idle) by done. cbn [thread_step].
  rewrite (act_at _ _ _ _ _ Locked) by done. cbn [thread_step].
  rewrite list_insert_insert_eq.
  rewrite (act_at _ _ _ _ _ (LoadedCurr (curr m))) by done. cbn [thread_step].
  rewrite list_insert_insert_eq.
  rewrite (act_at _ _ _ _ _ (LoadedPrev (curr m) (prev m))) by done.
  cbn [thread_step mem threads added]. unfold value.
  destruct (prev m =? curr m).
  - rewrite list_insert_insert_eq.
    rewrite (act_at _ _ _ _ _ (Returned 0)) by done. cbn [thread_step fst snd].
    by rewrite list_insert_insert_eq.
  - rewrite list_insert_insert_eq.
    rewrite (act_at _ _ _ _ _ (Returned (sub64 (curr m) (prev m)))) by done.
    cbn [thread_step fst snd]. by rewrite list_insert_insert_eq.
Qed.

(** Two passes that run one after the other both finish: the first
    observes what [value] returns, the second observes 0. *)
Lemma two_passes_finish c0 :
  let st := exec (replicate 5 (Step 0%nat) ++ replicate 5 (Step 1%nat)) (init c0 2) in
  threads st = [Done (value c0).1; Done 0].
Proof.
  unfold exec. rewrite foldl_app. fold (exec (replicate 5 (Step 0%nat)) (init c0 2)).
  rewrite pass_alone by done.
  match goal with |- context [foldl act ?s _] =>
    fold (exec (replicate 5 (Step 1%nat)) s) end.
  rewrite pass_alone by done. cbn [threads mem init].
  rewrite value_state, (value_settled {| prev := curr c0; curr := curr c0 |}) by done.
  reflexivity.
Qed.

(** The mutex is what serialises the reads: in a state that no schedule
    reaches from [init], two threads inside [value] at once, both observe
    the pending delta. *)
Example value_without_mutex :
  let st := exec (Step <$> [0; 1; 0; 1; 0; 1])%nat
                 (mkSys {| prev := 2; curr := 7 |} true [Locked; Locked] 0) in
  threads st = [Returned 5; Returned 5].
Proof. vm_compute. done. Qed.

(** C9. Flush passes that race to consume one counter are serialised by
    the registry mutex. Over an interval without [Inc], however the
    atomic steps of the passes interleave, at most one pass observes a
    delta that is not zero, that delta is the whole pending one, and
    after it the baseline is the current total. And with producers
    running, in every schedule the deltas observed so far plus what is
    still pending add up, as [int64], to what was pending at the start
    plus the deltas of all the [Inc] calls: nothing is added twice and
    nothing is lost. *)
Theorem consume_serialized (c0 : counter) (n : nat) :
  (∀ sched, Forall is_step sched →
     let st := exec sched (init c0 n) in
     (∀ i j di dj, i ≠ j →
        observed st i = Some di → observed st j = Some dj → di = 0 ∨ dj = 0) ∧
     (∀ i d, observed st i = Some d →
        (d = 0 ∨ d = sub64 (curr c0) (prev c0)) ∧
        prev (mem st) = curr (mem st) ∧ curr (mem st) = curr c0)) ∧
  (∀ sched,
     let st := exec sched (init c0 n) in
     wrap64 (obs_sum (threads st) + (curr (mem st) - prev (mem st)))
       = wrap64 (curr c0 - prev c0 + added st)).
Proof.
  split.
  - intros sched Hs st.
    destruct (quiet_exec c0 sched (init c0 n) Hs (quiet_init c0 n))
      as [Qc Qp Qf Qe Qlc Qlp Qv Qo]. fold st in Qc, Qp, Qf, Qe, Qlc, Qlp, Qv, Qo.
    unfold observed. split.
    + intros i j di dj Hij Hi Hj.
      destruct (threads st !! i) as [ti|] eqn:Ei; [|done].
      destruct (threads st !! j) as [tj|] eqn:Ej; [|done].
      simpl in Hi, Hj. by eapply (Qo i j).
    + intros i d Hi.
      destruct (threads st !! i) as [ti|] eqn:Ei; [|done]. simpl in Hi.
      destruct (Qv i ti d Ei Hi). done.
  - intros sched st. apply (acct_exec c0 sched (init c0 n)), acct_init.
Qed.

End race_facts.

(** ** The statements at concrete inputs *)

Section instances.
Import Int64 Counter Keymap Scope Race.
Local Open Scope string_scope.

(** A range that yields the entries in the order of [map_to_list]. *)
Lemma map_to_list_range :
  ∀ (A : Type) (m : gmap string A), (fun A => map_to_list) A m ≡ₚ map_to_list m.
Proof. intros A m. reflexivity. Qed.

Lemma two_scopes_reachable : reachable (fun A => map_to_list) two_scopes.
Proof.
  exists (mkOptions None "" (Some (mkReporter None)) ""), 0, [OpTagged root {[ "a" := "1" ]}].
  reflexivity.
Qed.

Lemma flush_once_per_scope_witness :
  (∀ (A : Type) (m : gmap string A), (fun A => map_to_list) A m ≡ₚ map_to_list m) ∧
  flushes (calls (reportRegistryWithLock (fun A => map_to_list) root two_scopes))
    = (flushes (calls two_scopes) + visited root two_scopes)%nat.
Proof.
  split; [exact map_to_list_range|].
  exact (proj1 (proj2 (flush_once_per_scope (fun A => map_to_list)
                         map_to_list_range two_scopes root))).
Defined.

Lemma KeyMap_deterministic_witness :
  Forall valid_call [] ∧ Forall valid_call [mkCall "q" tags_a ["a"]] ∧
  range_of tags_ab ["b"; "a"] ∧ range_of tags_ab ["a"; "b"] ∧
  ∃ db1 db2,
    KeyMap_calls [] keyDB = Some db1 ∧
    KeyMap_calls [mkCall "q" tags_a ["a"]] keyDB = Some db2 ∧
    pool_ok db1 ∧ pool_ok db2 ∧
    fst <$> KeyMap "p" tags_ab ["b"; "a"] db1 = Some (KeyMap_spec "p" tags_ab) ∧
    fst <$> KeyMap "p" tags_ab ["a"; "b"] db2 = Some (KeyMap_spec "p" tags_ab) ∧
    fst <$> KeyMap "p" tags_ab ["b"; "a"] db1
      = fst <$> KeyMap "p" tags_ba ["a"; "b"] db2 ∧
    fst <$> KeyMap "p" tags_ab ["b"; "a"] db1
      ≠ fst <$> KeyMap "p" tags_a ["a"] db2.
Proof.
  assert (H1 : Forall valid_call []) by constructor.
  assert (H2 : Forall valid_call [mkCall "q" tags_a ["a"]]).
  { constructor; [|constructor]. apply range_ab. }
  assert (H3 : range_of tags_ab ["b"; "a"]) by apply range_ab.
  assert (H4 : range_of tags_ab ["a"; "b"]) by apply range_ab.
  split_and!; [done..|].
  exact (KeyMap_deterministic "p" tags_ab ["b"; "a"] ["a"; "b"] []
           [mkCall "q" tags_a ["a"]] H1 H2 H3 H4).
Defined.

Lemma KeyMap_injective_witness :
  pool_ok keyDB ∧ range_of tags_a ["a"] ∧ range_of tags_ab ["b"; "a"] ∧
  tags_ok tags_a ∧ tags_ok tags_ab ∧ ("p", tags_a) ≠ ("p", tags_ab) ∧
  ∃ k1 k2,
    fst <$> KeyMap "p" tags_a ["a"] keyDB = Some k1 ∧
    fst <$> KeyMap "p" tags_ab ["b"; "a"] keyDB = Some k2 ∧
    k1 ≠ k2.
Proof.
  assert (H1 : pool_ok keyDB) by apply keyDB_ok.
  assert (H2 : range_of tags_a ["a"]) by apply range_ab.
  assert (H3 : range_of tags_ab ["b"; "a"]) by apply range_ab.
  assert (H4 : tags_ok tags_a) by apply tags_ok_examples.
  assert (H5 : tags_ok tags_ab) by apply tags_ok_examples.
  assert (H6 : ("p", tags_a) ≠ ("p", tags_ab)).
  { intros E. pose proof (f_equal (fun x => x.2 !! "b") E) as X.
    by vm_compute in X. }
  split_and!; [done..|].
  exact (KeyMap_injective "p" "p" tags_a tags_ab ["a"] ["b"; "a"] keyDB keyDB
           H1 H1 H2 H3 H4 H5 H6).
Defined.


Lemma derivation_idempotent_witness :
  reachable (fun A => map_to_list) two_scopes ∧
  (1 < length (heap two_scopes))%nat ∧
  (let r := SubScope 1 "x" two_scopes in
   let w2 := run (fun A => map_to_list) [OpInc 1 "n" 3] r.2 in
   SubScope 1 "x" w2 = (r.1, w2)) ∧
  Tagged 1 ∅ two_scopes = (1%nat, two_scopes).
Proof.
  assert (L : (1 < length (heap two_scopes))%nat) by (vm_compute; lia).
  split_and!; [exact two_scopes_reachable|exact L|..].
  - exact (proj1 (proj2 (derivation_idempotent (fun A => map_to_list) two_scopes
             1 1 "x" ∅ [OpInc 1 "n" 3] two_scopes_reachable L L eq_refl eq_refl))).
  - exact (proj2 (proj2 (proj2 (derivation_idempotent (fun A => map_to_list)
             two_scopes 1 1 "x" ∅ [] two_scopes_reachable L L eq_refl eq_refl)))).
Defined.

Lemma closed_root_reports_nothing_witness :
  reachable (fun A => map_to_list) two_scopes ∧
  (let w1 := (Close (fun A => map_to_list) root two_scopes).2 in
   let w2 := run (fun A => map_to_list) [OpInc root "PollCount" 1; OpTick] w1 in
   Report (fun A => map_to_list) root w2 = w2 ∧
   tick (fun A => map_to_list) w2 = w2).
Proof.
  split; [exact two_scopes_reachable|].
  pose proof (closed_root_reports_nothing (fun A => map_to_list) two_scopes
                [OpInc root "PollCount" 1; OpTick] two_scopes_reachable) as H.
  exact (conj (proj1 (proj2 H)) (proj1 (proj2 (proj2 H)))).
Defined.

Lemma consume_serialized_witness :
  Forall is_step (Step <$> [0; 1; 0; 0; 1; 0; 0; 1; 1; 1; 1; 1])%nat ∧
  (let st := exec (Step <$> [0; 1; 0; 0; 1; 0; 0; 1; 1; 1; 1; 1])%nat
                  (init {| prev := 2; curr := 7 |} 2) in
   ∀ i j di dj, i ≠ j →
     observed st i = Some di → observed st j = Some dj → di = 0 ∨ dj = 0).
Proof.
  assert (H : Forall is_step (Step <$> [0; 1; 0; 0; 1; 0; 0; 1; 1; 1; 1; 1])%nat)
    by (repeat constructor).
  split; [exact H|].
  exact (proj1 (proj1 (consume_serialized {| prev := 2; curr := 7 |} 2) _ H)).
Defined.

End instances.

(** ** More on counters, gauges and the key codec *)

Section stats_more.
Import Int64 Counter StatsMore.

Lemma fold_add64_nonempty d ds a :
  fold_left add64 (d :: ds) a = wrap64 (a + sumZ (d :: ds)).
Proof.
  rewrite <- fold_add64_wrap. symmetry. apply wrap64_id.
  simpl. apply fold_add64_range, wrap64_range.
Qed.

Lemma sumZ_perm ds ds' : ds ≡ₚ ds' → sumZ ds = sumZ ds'.
Proof. induction 1; simpl; lia. Qed.

(** X1. [Inc] calls commute: the counter reached does not depend on the
    order in which the producers' deltas arrive. *)
Theorem Incs_permutation (ds ds' : list Z) (c : counter) :
  ds ≡ₚ ds' → Incs ds c = Incs ds' c.
Proof.
  intros Hp.
  assert (E : curr (Incs ds c) = curr (Incs ds' c)).
  { rewrite !curr_Incs. destruct ds as [|d ds], ds' as [|d' ds'].
    - done.
    - by apply Permutation_nil_cons in Hp.
    - symmetry in Hp. by apply Permutation_nil_cons in Hp.
    - rewrite !fold_add64_nonempty. by rewrite (sumZ_perm _ _ Hp). }
  pose proof (prev_Incs ds c) as P1. pose proof (prev_Incs ds' c) as P2.
  destruct (Incs ds c), (Incs ds' c). simpl in *. congruence.
Qed.

(** X2. However many [Update] calls a gauge receives between two report
    steps, the report step emits one [ReportGauge] call, with the value
    of the last [Update], and leaves the gauge clean with that value. *)
Theorem gauge_last_update_wins (vs : list Z) (x : Z) (g : Gauge.gauge)
    (name : string) (tags : gmap string string) :
  Gauge.report name tags (Updates (vs ++ [x]) g)
    = ([ReportGauge name tags x], {| Gauge.updated := 0; Gauge.curr := x |}).
Proof. unfold Updates. by rewrite fold_left_app. Qed.

End stats_more.

Section keymap_more.
Import Keymap StatsMore.
Local Open Scope string_scope.
Local Open Scope nat_scope.

Lemma sorted_keys_empty : sorted_keys ∅ = [].
Proof. unfold sorted_keys. by rewrite map_to_list_empty. Qed.

Lemma sorted_keys_singleton k v : sorted_keys {[ k := v ]} = [k].
Proof. unfold sorted_keys. by rewrite map_to_list_singleton. Qed.

Lemma KeyMap_spec_empty prefix :
  KeyMap_spec prefix ∅ = if decide (prefix = "") then "" else prefix +:+ "+".
Proof.
  unfold KeyMap_spec. rewrite sorted_keys_empty. simpl.
  by rewrite str_app_nil_r.
Qed.

Lemma KeyMap_spec_singleton prefix k v :
  KeyMap_spec prefix {[ k := v ]} =
    (if decide (prefix = "") then "" else prefix +:+ "+") +:+ k +:+ "=" +:+ v.
Proof.
  unfold KeyMap_spec. rewrite sorted_keys_singleton. simpl.
  unfold pair_of. by rewrite lookup_singleton_eq.
Qed.

(** X3. With no tags [KeyMap] returns the prefix followed by the prefix
    separator, and the empty string for an empty prefix: a scope without
    tags is registered under ["prefix+"], not under ["prefix"]. *)
Theorem KeyMap_no_tags (prefix : string) (db : itemDB) :
  pool_ok db →
  fst <$> KeyMap prefix ∅ [] db
    = Some (if decide (prefix = "") then "" else prefix +:+ "+").
Proof.
  intros Hdb.
  destruct (KeyMap_refines prefix ∅ [] db) as (db' & -> & _); [done| |].
  - unfold range_of. by rewrite map_to_list_empty.
  - simpl. by rewrite KeyMap_spec_empty.
Qed.

Lemma str_app_neq_l s t : t ≠ "" → s +:+ t ≠ s.
Proof.
  intros Ht E. induction s as [|a s IH]; [done|].
  rewrite str_app_cons in E. injection E as E. by apply IH.
Qed.

(** X4. The restriction on the alphabet is needed: a tag key that
    contains the prefix separator collides with a longer prefix. For a
    non-empty [p], the scope [(p+q, {k: v})] and the scope
    [(p, {q+k: v})], which differ, get one and the same key. *)
Theorem KeyMap_collision (p q k v : string) (db1 db2 : itemDB) :
  p ≠ "" → pool_ok db1 → pool_ok db2 →
  (p +:+ "+" +:+ q, ({[ k := v ]} : gmap string string))
    ≠ (p, {[ q +:+ "+" +:+ k := v ]}) ∧
  ∃ key,
    fst <$> KeyMap (p +:+ "+" +:+ q) {[ k := v ]} [k] db1 = Some key ∧
    fst <$> KeyMap p {[ q +:+ "+" +:+ k := v ]} [q +:+ "+" +:+ k] db2 = Some key.
Proof.
  intros Hp Hdb1 Hdb2. split.
  { intros [= E _]. by apply str_app_neq_l in E. }
  destruct (KeyMap_refines (p +:+ "+" +:+ q) {[ k := v ]} [k] db1)
    as (? & -> & _); [done| |].
  { unfold range_of. by rewrite map_to_list_singleton. }
  destruct (KeyMap_refines p {[ q +:+ "+" +:+ k := v ]} [q +:+ "+" +:+ k] db2)
    as (? & -> & _); [done| |].
  { unfold range_of. by rewrite map_to_list_singleton. }
  eexists. split; [done|]. simpl. f_equal.
  rewrite !KeyMap_spec_singleton.
  rewrite (decide_False (P := p = "")) by done.
  rewrite (decide_False (P := p +:+ "+" +:+ q = "")) by (destruct p; [by destruct Hp|discriminate]).
  by rewrite !str_app_assoc.
Qed.

(** *** The pool keeps its size *)

Lemma get_put_length {A} (x : A) (d : DB A) :
  db_bounded d →
  capacity (put x (get d).2) = capacity d ∧
  length (values (put x (get d).2)) = recycled (length (values d)) (capacity d) ∧
  db_bounded (put x (get d).2).
Proof.
  unfold db_bounded, get, put. intros Hb.
  destruct (values d) as [|v rest] eqn:E; simpl.
  - rewrite E. simpl. case_decide; simpl; rewrite ?E; simpl; split_and!;
      destruct (capacity d); simpl in *; lia.
  - simpl in Hb. rewrite decide_True by lia. simpl.
    rewrite length_app. simpl. split_and!; lia.
Qed.

(** X5. A call of [KeyMap] takes one buffer and one key slice from the
    pool and gives them back: a pool within its capacity stays within
    it, a pool that is not empty keeps its size, and an exhausted pool,
    for which the call allocates, receives the allocated object if it
    has room at all. *)
Theorem KeyMap_recycles (prefix : string) (tags : gmap string string)
    (range_keys : list string) (db : itemDB) :
  pool_ok db → range_of tags range_keys → pool_bounded db →
  ∃ key db',
    KeyMap prefix tags range_keys db = Some (key, db') ∧
    pool_bounded db' ∧
    capacity (bufferDB db') = capacity (bufferDB db) ∧
    capacity (stringsDB db') = capacity (stringsDB db) ∧
    length (values (bufferDB db'))
      = recycled (length (values (bufferDB db))) (capacity (bufferDB db)) ∧
    length (values (stringsDB db'))
      = recycled (length (values (stringsDB db))) (capacity (stringsDB db)).
Proof.
  intros Hok Hr [Hb Hs].
  destruct (KeyMap_refines prefix tags range_keys db Hok Hr) as (db' & E & _).
  exists (KeyMap_spec prefix tags), db'. split; [done|].
  unfold KeyMap in E.
  destruct (get (stringsDB db)) as [keys sdb] eqn:Gs.
  destruct (get (bufferDB db)) as [buf bdb] eqn:Gb.
  destruct (write_pairs _ _ _ _ _ _) as [buf'|]; [|done].
  injection E as _ <-. unfold release, pool_bounded. simpl.
  pose proof (get_put_length (A:=Buffer) (Reset buf') (bufferDB db) Hb) as Lb.
  pose proof (get_put_length
    (take 0 ((fun _ => emptyString) <$>
       merge_sort String.le (fold_left (fun keys k => (keys ++ [k])%list) range_keys keys)))
    (stringsDB db) Hs) as Ls.
  rewrite Gb in Lb. rewrite Gs in Ls. simpl in Lb, Ls.
  destruct Lb as (? & ? & ?), Ls as (? & ? & ?). done.
Qed.

End keymap_more.

(** ** More on the scope tree *)

Section scope_more.
Import Keymap Scope ScopeMore.
Local Open Scope nat_scope.

Context (map_range : ∀ A : Type, gmap string A → list (string * A)).

Implicit Types (w : world) (sc : scope) (s p : nat).

Lemma mergeRightTags_eq (tagsLeft tagsRight : gmap string string) :
  mergeRightTags tagsLeft tagsRight = tagsRight ∪ tagsLeft.
Proof.
  unfold mergeRightTags. case_decide as Hr.
  - apply map_size_empty_inv in Hr as ->. by rewrite (left_id_L ∅ (∪)).
  - case_decide as Hl; [|done].
    apply map_size_empty_inv in Hl as ->. by rewrite (right_id_L ∅ (∪)).
Qed.


(** *** What [scope.report] forwards *)

Lemma report_counters_fold sc (l : list (string * Counter.counter))
    (acc : list call * gmap string Counter.counter) :
  foldl (fun acc entry =>
           let '(out, c') :=
             Counter.report (fullyQualifiedName sc entry.1) (tags sc) entry.2 in
           (acc.1 ++ out, <[entry.1 := c']> acc.2)) acc l
  = (acc.1 ++ omap (counter_call sc) l,
     foldl (fun m entry => <[entry.1 := consumed_counter entry.2]> m) acc.2 l).
Proof.
  revert acc. induction l as [|e l IH]; intros acc; simpl.
  - rewrite app_nil_r. by destruct acc.
  - rewrite IH. unfold Counter.report, counter_call.
    pose proof (value_delta e.2) as D. pose proof (value_state e.2) as S.
    destruct (Counter.value e.2) as [d c']. simpl in D, S. subst d c'.
    destruct (Int64.sub64 _ _ =? 0)%Z; simpl.
    + by rewrite app_nil_r.
    + by rewrite <- app_assoc.
Qed.

Lemma report_gauges_fold sc (l : list (string * Gauge.gauge))
    (acc : list call * gmap string Gauge.gauge) :
  foldl (fun acc entry =>
           let '(out, g') :=
             Gauge.report (fullyQualifiedName sc entry.1) (tags sc) entry.2 in
           (acc.1 ++ out, <[entry.1 := g']> acc.2)) acc l
  = (acc.1 ++ omap (gauge_call sc) l,
     foldl (fun m entry => <[entry.1 := consumed_gauge entry.2]> m) acc.2 l).
Proof.
  revert acc. induction l as [|e l IH]; intros acc; simpl.
  - rewrite app_nil_r. by destruct acc.
  - rewrite IH. unfold Gauge.report, gauge_call.
    destruct (Gauge.updated e.2 =? 1)%Z; simpl.
    + by rewrite <- app_assoc.
    + by rewrite app_nil_r.
Qed.

(** *** Every call but [Close] is made of elementary changes *)

Lemma closes_app l1 l2 : closes (l1 ++ l2) = closes l1 + closes l2.
Proof. unfold closes. by rewrite filter_app, length_app. Qed.

Lemma closes_cons_ne c l : c ≠ CloserClose → closes (c :: l) = closes l.
Proof. intros Hc. unfold closes. by rewrite filter_cons_False by congruence. Qed.

Lemma closes_counter_calls sc (l : list (string * Counter.counter)) :
  closes (omap (counter_call sc) l) = 0.
Proof.
  induction l as [|e l IH]; [done|]. simpl. unfold counter_call at 1.
  destruct (_ =? 0)%Z; [done|]. by rewrite closes_cons_ne.
Qed.

Lemma closes_gauge_calls sc (l : list (string * Gauge.gauge)) :
  closes (omap (gauge_call sc) l) = 0.
Proof.
  induction l as [|e l IH]; [done|]. simpl. unfold gauge_call at 1.
  destruct (_ =? 1)%Z; [|done]. by rewrite closes_cons_ne.
Qed.

Lemma fold_insert_is_Some {A} (f : A → A) (l : list (string * A))
    (m0 : gmap string A) (i : string) :
  is_Some (m0 !! i) →
  is_Some (foldl (fun m entry => <[entry.1 := f entry.2]> m) m0 l !! i).
Proof.
  revert m0. induction l as [|e l IH]; intros m0 Hi; simpl; [done|].
  apply IH. rewrite lookup_insert. by case_decide.
Qed.

Lemma metrics_kept_refl sc : metrics_kept sc sc.
Proof. by intros name. Qed.

Lemma change_store_emit s sc' out w :
  ident sc' = ident (heap w !!! s) →
  status sc' = status (heap w !!! s) →
  metrics_kept (heap w !!! s) sc' →
  closes out = 0 →
  rtc change w (emit out (store s sc' w)).
Proof.
  intros Hi Hs Hm Ho.
  apply rtc_l with (store s sc' w); [by apply change_store|].
  by apply rtc_once, change_emit.
Qed.

Lemma change_report ss r w : rtc change w (report map_range ss r w).
Proof.
  unfold report, report_counters, report_gauges.
  rewrite report_counters_fold, report_gauges_fold. simpl.
  apply change_store_emit; [done..| |].
  - intros name. split; simpl; intros ?; by apply fold_insert_is_Some.
  - by rewrite !closes_app, closes_counter_calls, closes_gauge_calls.
Qed.

Lemma change_foldl {A} (f : world → A → world) (l : list A) w :
  (∀ w x, rtc change w (f w x)) → rtc change w (foldl f w l).
Proof.
  intros Hf. revert w. induction l as [|x l IH]; intros w; simpl; [done|].
  etrans; [apply Hf|apply IH].
Qed.

Lemma change_reportRegistryWithLock s w :
  rtc change w (reportRegistryWithLock map_range s w).
Proof.
  unfold reportRegistryWithLock. destruct (reporter _); [|done].
  apply change_foldl. intros. apply change_report.
Qed.

Lemma change_reportLoopRun s w : rtc change w (reportLoopRun map_range s w).
Proof.
  unfold reportLoopRun. destruct (closed _); [done|].
  apply change_reportRegistryWithLock.
Qed.

Lemma change_Counter s name w : rtc change w (Counter s name w).
Proof.
  unfold Counter, counter. destruct (_ !! name) eqn:E; [done|].
  apply rtc_once, change_store; [done..|].
  intros n. split; simpl; [|done]. rewrite lookup_insert. by case_decide.
Qed.

Lemma change_Gauge s name w : rtc change w (Gauge s name w).
Proof.
  unfold Gauge, gauge. destruct (_ !! name) eqn:E; [done|].
  apply rtc_once, change_store; [done..|].
  intros n. split; simpl; [done|]. rewrite lookup_insert. by case_decide.
Qed.

Lemma change_Inc s name v w : rtc change w (Inc s name v w).
Proof.
  apply rtc_once, change_store; [done..|].
  intros n. split; simpl; [|done]. rewrite lookup_alter.
  case_decide; [|done]. subst. intros [c ->]. by eexists.
Qed.

Lemma change_Update s name v w : rtc change w (Update s name v w).
Proof.
  apply rtc_once, change_store; [done..|].
  intros n. split; simpl; [done|]. rewrite lookup_alter.
  case_decide; [|done]. subst. intros [c ->]. by eexists.
Qed.

Lemma change_newSubscope s pre tgs key w :
  s < length (heap w) → rtc change w (newSubscope s pre tgs key w).2.
Proof.
  intros Hs. unfold newSubscope. destruct (subscopes w !! key) eqn:E; [done|].
  simpl. by apply rtc_once, change_alloc.
Qed.

Lemma change_subscope s pre tgs w :
  s < length (heap w) → rtc change w (subscope s pre tgs w).2.
Proof.
  intros Hs. unfold subscope. simpl.
  destruct (subscopes w !! _) eqn:E; [done|]. by apply change_newSubscope.
Qed.

Lemma change_loop_quit w : rtc change w (loop_quit w).
Proof.
  unfold loop_quit. destruct (loop w); [|done].
  destruct (quit _); try done. apply rtc_once, change_loop.
Qed.

Lemma change_step w o :
  o ≠ OpClose → rtc change w (step map_range w o).
Proof.
  intros Ho.
  destruct o as [s name|s name|s name v|s name v|s tgs|s name|s pre tgs|s|s| | |];
    simpl; try case_decide; try done.
  - apply change_Counter.
  - apply change_Gauge.
  - etrans; [apply change_Counter|apply change_Inc].
  - etrans; [apply change_Gauge|apply change_Update].
  - by apply change_subscope.
  - by apply change_subscope.
  - by apply change_newSubscope.
  - apply change_reportLoopRun.
  - unfold tick. destruct (loop w); [apply change_reportLoopRun|done].
  - apply change_loop_quit.
Qed.

(** *** What the elementary changes keep *)

Lemma store_same s sc' w p :
  ident sc' = ident (heap w !!! s) → status sc' = status (heap w !!! s) →
  ident (heap (store s sc' w) !!! p) = ident (heap w !!! p) ∧
  status (heap (store s sc' w) !!! p) = status (heap w !!! p).
Proof.
  intros Hi Hs. rewrite lookup_store. case_decide as E; [|done].
  by destruct E as [<- _].
Qed.

Lemma ident_fields sc sc' :
  ident sc = ident sc' →
  prefix sc = prefix sc' ∧ tags sc = tags sc' ∧
  separator sc = separator sc' ∧ reporter sc = reporter sc'.
Proof. unfold ident. by intros [= -> -> -> ->]. Qed.

Lemma tree_inv_same w w' :
  length (heap w') = length (heap w) →
  (∀ p, ident (heap w' !!! p) = ident (heap w !!! p)) →
  (∀ p, 0 < p → status (heap w' !!! p) = status (heap w !!! p)) →
  closes (calls w') ≤ 1 →
  (closed (status (heap w' !!! root)) = false → closes (calls w') = 0) →
  tree_inv w → tree_inv w'.
Proof.
  intros L I S C O [T1 T2 T3 T4 T5 T6]. split; try done.
  - lia.
  - intros p Hp. rewrite L in Hp. destruct (T2 p Hp) as [Hs Hr].
    destruct (ident_fields _ _ (I p)) as (_ & _ & -> & ->).
    destruct (ident_fields _ _ (I root)) as (_ & _ & -> & ->). done.
  - by destruct (ident_fields _ _ (I root)) as (_ & _ & -> & _).
  - intros p Hp. rewrite S by lia. apply T4. lia.
Qed.

Lemma tree_inv_change w w' : change w w' → tree_inv w → tree_inv w'.
Proof.
  intros Hc T. destruct Hc as [s sc' w Hi Hs Hm|out w Ho|s pre tgs key w Hs Hk|b w].
  - apply (tree_inv_same w); simpl; try done.
    + apply length_insert.
    + intros p. by apply store_same.
    + intros p _. by apply store_same.
    + apply (ti_closes w T).
    + destruct (store_same s sc' w root Hi Hs) as [_ E]. simpl in E.
      rewrite E. apply (ti_open w T).
  - apply (tree_inv_same w); simpl; try done.
    + rewrite closes_app, Ho. pose proof (ti_closes w T). lia.
    + intros Hc. rewrite closes_app, Ho, (ti_open w T Hc). done.
  - destruct T as [T1 T2 T3 T4 T5 T6].
    set (sub := mkScope pre _ _ tgs _ ∅ ∅).
    assert (Old : ∀ p, p < length (heap w) → (heap w ++ [sub]) !!! p = heap w !!! p).
    { intros p Hp. by apply lookup_total_app_l. }
    assert (New : (heap w ++ [sub]) !!! length (heap w) = sub).
    { by apply list_lookup_total_middle. }
    split; simpl; try done.
    + rewrite length_app. lia.
    + intros p. rewrite length_app. simpl. intros Hp.
      rewrite (Old root) by done.
      destruct (decide (p = length (heap w))) as [->|Hne].
      * rewrite New. simpl. by apply T2.
      * rewrite Old by lia. apply T2. lia.
    + by rewrite Old.
    + intros p. rewrite length_app. simpl. intros Hp.
      destruct (decide (p = length (heap w))) as [->|Hne].
      * by rewrite New.
      * rewrite Old by lia. apply T4. lia.
    + by rewrite Old.
  - by destruct T.
Qed.

Lemma tree_inv_rtc w w' : rtc change w w' → tree_inv w → tree_inv w'.
Proof. induction 1; eauto using tree_inv_change. Qed.

Lemma closes_rtc w w' : rtc change w w' → closes (calls w') = closes (calls w).
Proof.
  induction 1 as [|x y z Hxy _ IH]; [done|]. rewrite IH.
  destruct Hxy as [| out x Ho| |]; simpl; try done.
  rewrite closes_app, Ho. lia.
Qed.

Lemma closes_closer_calls sc : closes (closer_calls sc) ≤ 1.
Proof. unfold closer_calls. destruct (reporter sc) as [[[e|]]|]; vm_compute; lia. Qed.

Lemma tree_inv_Close w :
  wf w → tree_inv w → tree_inv (Close map_range root w).2.
Proof.
  intros Hw T. destruct (closed (status (heap w !!! root))) eqn:Hc.
  { by rewrite Close_closed. }
  rewrite Close_open by done. simpl.
  set (w1 := mark_closed w).
  set (w2 := reportRegistryWithLock map_range root w1).
  assert (C1 : closed (status (heap w1 !!! root)) = true).
  { unfold w1, mark_closed. rewrite lookup_store.
    rewrite decide_True; [done|]. split; [done|apply (wf_root w Hw)]. }
  assert (T1 : tree_inv w1).
  { apply (tree_inv_same w); try done.
    - apply length_insert.
    - intros p. unfold w1, mark_closed. rewrite lookup_store. by case_decide as E; [destruct E as [<- _]|].
    - intros p Hp. unfold w1, mark_closed. rewrite lookup_store.
      rewrite decide_False; [done|]. unfold root. lia.
    - apply (ti_closes w T).
    - by rewrite C1. }
  assert (Q1 : closes (calls w1) = 0) by apply (ti_open w T Hc).
  assert (T2 : tree_inv w2) by (eapply tree_inv_rtc; [apply change_reportRegistryWithLock|done]).
  assert (Q2 : closes (calls w2) = 0).
  { unfold w2. by rewrite (closes_rtc _ _ (change_reportRegistryWithLock root w1)). }
  assert (C2 : closed (status (heap w2 !!! root)) = true).
  { pose proof (touch_reportRegistryWithLock map_range root w1) as Tc.
    fold w2 in Tc. by rewrite (t_status _ _ Tc). }
  apply (tree_inv_same w2); simpl; try done.
  - rewrite closes_app, Q2. apply closes_closer_calls.
  - by rewrite C2.
Qed.

Lemma tree_inv_step w o :
  wf w → tree_inv w → tree_inv (step map_range w o).
Proof.
  intros Hw T.
  assert (o = OpClose ∨ o ≠ OpClose) as [->|Ho]
    by (destruct o; ((by left) || (by right))).
  - by apply tree_inv_Close.
  - eapply tree_inv_rtc; [by apply change_step|done].
Qed.

Lemma tree_inv_init opts reportInterval :
  tree_inv (newRootScope opts reportInterval).
Proof.
  unfold newRootScope. split; simpl; try done.
  - unfold root. lia.
  - intros p Hp. by assert (p = 0) as -> by lia.
  - case_decide; done.
  - intros p Hp. lia.
  - unfold closes. simpl. lia.
Qed.

Lemma tree_inv_run ops w :
  wf w → tree_inv w → tree_inv (run map_range ops w).
Proof.
  revert w. induction ops as [|o ops IH]; intros w Hw T; simpl; [done|].
  apply IH; [by apply step_spec|by apply tree_inv_step].
Qed.

Lemma reachable_tree_inv w : reachable map_range w → tree_inv w.
Proof.
  intros (opts & i & ops & ->).
  apply tree_inv_run; [apply newRootScope_wf|apply tree_inv_init].
Qed.

(** X7. All the scopes of a tree use the separator and the reporter of
    its root, and the separator is never empty: an empty one in the
    options is replaced by ["."]. *)
Theorem scopes_share_root_settings (w : world) (p : nat) :
  reachable map_range w → p < length (heap w) →
  separator (heap w !!! p) = separator (heap w !!! root) ∧
  reporter (heap w !!! p) = reporter (heap w !!! root) ∧
  separator (heap w !!! p) ≠ ""%string.
Proof.
  intros T%reachable_tree_inv Hp.
  destruct (ti_shared w T p Hp) as [Hs Hr]. split_and!; [done..|].
  rewrite Hs. apply (ti_separator w T).
Qed.


(** X9. The closed flag is kept per scope and only [Close] sets it, so
    a derived scope is never closed: [Report()] on a derived scope runs
    a flush pass whether the root has been closed or not. *)
Theorem Report_derived_not_gated (w : world) (p : nat) :
  reachable map_range w → 0 < p < length (heap w) →
  closed (status (heap w !!! p)) = false ∧
  Report map_range p w = reportRegistryWithLock map_range p w.
Proof.
  intros T%reachable_tree_inv Hp. unfold Report, reportLoopRun.
  by rewrite (ti_derived w T p Hp).
Qed.

(** X10. Over the whole life of a tree the [Close] of a reporter that is
    an [io.Closer] is called at most once, and not before the root is
    closed. *)
Theorem reporter_closed_at_most_once (w : world) :
  reachable map_range w →
  closes (calls w) ≤ 1 ∧
  (closed (status (heap w !!! root)) = false → closes (calls w) = 0).
Proof.
  intros T%reachable_tree_inv. split; [apply (ti_closes w T)|apply (ti_open w T)].
Qed.

(** *** Nothing is removed *)

Lemma nothing_removed_refl w : nothing_removed w w.
Proof. split; [done..|]. intros p _. apply metrics_kept_refl. Qed.

Lemma nothing_removed_trans w1 w2 w3 :
  nothing_removed w1 w2 → nothing_removed w2 w3 → nothing_removed w1 w3.
Proof.
  intros [H1 R1 M1] [H2 R2 M2]. split.
  - lia.
  - intros key p Hk. by apply R2, R1.
  - intros p Hp name. specialize (M1 p Hp name). specialize (M2 p ltac:(lia) name).
    split; intros ?; [by apply M2, M1|by apply M2, M1].
Qed.

Lemma nothing_removed_store s sc' w :
  metrics_kept (heap w !!! s) sc' → nothing_removed w (store s sc' w).
Proof.
  intros Hm. split; simpl; [by rewrite length_insert|done|].
  intros p Hp. rewrite list_lookup_total_insert.
  case_decide as E; [|apply metrics_kept_refl]. by destruct E as [<- _].
Qed.

Lemma nothing_removed_same w w' :
  heap w' = heap w → subscopes w' = subscopes w → nothing_removed w w'.
Proof.
  intros Hh Hs. split; rewrite ?Hh, ?Hs; [done..|].
  intros p _. apply metrics_kept_refl.
Qed.

Lemma nothing_removed_change w w' : change w w' → nothing_removed w w'.
Proof.
  intros [s sc' w0 Hi Hs Hm|out w0 Ho|s pre tgs key w0 Hs Hk|b w0].
  - by apply nothing_removed_store.
  - by apply nothing_removed_same.
  - split; simpl.
    + rewrite length_app. lia.
    + intros k p Hp. rewrite lookup_insert_ne; [done|congruence].
    + intros p Hp. rewrite lookup_total_app_l by done. apply metrics_kept_refl.
  - by apply nothing_removed_same.
Qed.

Lemma nothing_removed_rtc w w' : rtc change w w' → nothing_removed w w'.
Proof.
  induction 1 as [|x y z Hxy _ IH]; [apply nothing_removed_refl|].
  eapply nothing_removed_trans; [by apply nothing_removed_change|done].
Qed.

Lemma nothing_removed_Close s w : nothing_removed w (Close map_range s w).2.
Proof.
  unfold Close. destruct (closed _); [apply nothing_removed_refl|].
  assert (S : ∀ st w0, nothing_removed w0 (store s (set_status st (heap w0 !!! s)) w0)).
  { intros st w0. apply nothing_removed_store. by intros name. }
  assert (S' : ∀ st, nothing_removed w
     (store s (set_status st (heap w !!! s))
        (store s (set_status (mkStatus true (quit (status (heap w !!! s))))
                             (heap w !!! s)) w))).
  { intros st. rewrite store_store. apply S. }
  destruct (quit _); simpl; try apply S.
  assert (P : ∀ w0, nothing_removed w0 (reportRegistryWithLock map_range s w0)).
  { intros w0. apply nothing_removed_rtc, change_reportRegistryWithLock. }
  destruct (reporter _) as [[[e|]]|]; simpl;
    (eapply nothing_removed_trans; [apply S'|]);
    (eapply nothing_removed_trans; [apply P|]);
    by apply nothing_removed_same.
Qed.

Lemma nothing_removed_step w o : nothing_removed w (step map_range w o).
Proof.
  assert (o = OpClose ∨ o ≠ OpClose) as [->|Ho]
    by (destruct o; ((by left) || (by right))).
  - apply nothing_removed_Close.
  - by apply nothing_removed_rtc, change_step.
Qed.

(** X11. No call removes anything from a tree: the scopes, the registry
    entries with the scope they point to, and the counters and gauges of
    every scope that exist at some time exist at every later time. *)
Theorem nothing_is_removed (w : world) (ops : list op) :
  length (heap w) ≤ length (heap (run map_range ops w)) ∧
  (∀ key p, subscopes w !! key = Some p →
     subscopes (run map_range ops w) !! key = Some p) ∧
  (∀ p name, p < length (heap w) →
     (is_Some (counters (heap w !!! p) !! name) →
      is_Some (counters (heap (run map_range ops w) !!! p) !! name)) ∧
     (is_Some (gauges (heap w !!! p) !! name) →
      is_Some (gauges (heap (run map_range ops w) !!! p) !! name))).
Proof.
  assert (N : nothing_removed w (run map_range ops w)).
  { revert w. induction ops as [|o ops IH]; intros w; simpl.
    - apply nothing_removed_refl.
    - eapply nothing_removed_trans; [apply nothing_removed_step|apply IH]. }
  destruct N as [H R M]. split_and!; [done..|].
  intros p name Hp. apply (M p Hp name).
Qed.

(** *** Derivation on the expected alphabet *)

Lemma tags_ok_union (l r : gmap string string) :
  tags_ok l → tags_ok r → tags_ok (r ∪ l).
Proof.
  intros Hl Hr k v [?|[_ ?]]%lookup_union_Some_raw; [by apply Hr|by apply Hl].
Qed.

Lemma subscope_good s pre tgs w :
  wf w → tree_inv w → all_tags_ok w → tags_ok tgs → s < length (heap w) →
  let r := subscope s pre tgs w in
  (wf r.2 ∧ tree_inv r.2 ∧ all_tags_ok r.2) ∧
  persist w r.2 ∧ r.1 < length (heap r.2) ∧
  prefix (heap r.2 !!! r.1) = pre ∧
  tags (heap r.2 !!! r.1) = tgs ∪ tags (heap w !!! s) ∧
  subscopes r.2 !! KeyMap_spec pre (tgs ∪ tags (heap w !!! s)) = Some r.1.
Proof.
  intros Hw T Hok Htgs Hs r.
  destruct (subscope_spec s pre tgs w Hw) as (Hw' & P & Hk & _).
  fold r in Hw', P, Hk. rewrite mergeRightTags_eq in Hk.
  assert (T' : tree_inv r.2) by (eapply tree_inv_rtc; [by apply change_subscope|done]).
  assert (Hm : tags_ok (tgs ∪ tags (heap w !!! s))) by (apply tags_ok_union; auto).
  destruct (wf_registry r.2 Hw' _ _ Hk) as [Hlt Hkey].
  unfold r, subscope in *. simpl in *. rewrite mergeRightTags_eq in *.
  destruct (subscopes w !! KeyMap_spec pre (tgs ∪ tags (heap w !!! s)))
    as [q|] eqn:E; simpl in *.
  - destruct (KeyMap_spec_inj _ _ _ _ (Hok q Hlt) Hm Hkey) as [Hp Ht].
    split_and!; done.
  - unfold newSubscope in *. rewrite E in *. simpl in *.
    rewrite list_lookup_total_middle in * by done. simpl in *.
    split_and!; try done.
    intros p Hp. simpl in Hp. rewrite length_app in Hp. simpl in *.
    destruct (decide (p = length (heap w))) as [->|Hne].
    + by rewrite list_lookup_total_middle.
    + rewrite lookup_total_app_l by lia. apply Hok. lia.
Qed.

Lemma persist_fields w w' p :
  persist w w' → p < length (heap w) →
  prefix (heap w' !!! p) = prefix (heap w !!! p) ∧
  tags (heap w' !!! p) = tags (heap w !!! p) ∧
  separator (heap w' !!! p) = separator (heap w !!! p) ∧
  reporter (heap w' !!! p) = reporter (heap w !!! p).
Proof. intros P Hp. apply ident_fields, (p_ident _ _ P p Hp). Qed.

(** X12. On the expected alphabet a derivation returns a scope with the
    identity asked for: [Tagged(tags)] one with the prefix of the
    receiver and the tags of the receiver overridden by [tags],
    [SubScope(name)] one with the fully qualified name as prefix and the
    tags of the receiver; both with the separator and the reporter of
    the receiver. *)
Theorem derived_scope_identity (w : world) (s : nat) (name : string)
    (tgs : gmap string string) :
  reachable map_range w → all_tags_ok w → tags_ok tgs → s < length (heap w) →
  (let r := Tagged s tgs w in
   prefix (heap r.2 !!! r.1) = prefix (heap w !!! s) ∧
   tags (heap r.2 !!! r.1) = tgs ∪ tags (heap w !!! s) ∧
   separator (heap r.2 !!! r.1) = separator (heap w !!! s) ∧
   reporter (heap r.2 !!! r.1) = reporter (heap w !!! s)) ∧
  (let r := SubScope s name w in
   prefix (heap r.2 !!! r.1) = fullyQualifiedName (heap w !!! s) name ∧
   tags (heap r.2 !!! r.1) = tags (heap w !!! s) ∧
   separator (heap r.2 !!! r.1) = separator (heap w !!! s) ∧
   reporter (heap r.2 !!! r.1) = reporter (heap w !!! s)).
Proof.
  intros Hr Hok Htgs Hs.
  pose proof (reachable_wf map_range w Hr) as Hw.
  pose proof (reachable_tree_inv w Hr) as T.
  assert (G : ∀ pre t, tags_ok t →
            let r := subscope s pre t w in
            prefix (heap r.2 !!! r.1) = pre ∧
            tags (heap r.2 !!! r.1) = t ∪ tags (heap w !!! s) ∧
            separator (heap r.2 !!! r.1) = separator (heap w !!! s) ∧
            reporter (heap r.2 !!! r.1) = reporter (heap w !!! s)).
  { intros pre t Ht r.
    destruct (subscope_good s pre t w Hw T Hok Ht Hs)
      as ((_ & T' & _) & P & Hlt & Hp & Htg & _). fold r in T', P, Hlt, Hp, Htg.
    destruct (ti_shared r.2 T' r.1 Hlt) as [S1 R1].
    destruct (ti_shared w T s Hs) as [S2 R2].
    destruct (persist_fields w r.2 root P (wf_root w Hw)) as (_ & _ & S3 & R3).
    split_and!; [done|done|congruence|congruence]. }
  split.
  - unfold Tagged. rewrite copyMap_id. by apply G.
  - unfold SubScope. destruct (G (fullyQualifiedName (heap w !!! s) name) ∅)
      as (? & Ht & ? & ?); [done|].
    rewrite (left_id_L ∅ (∪)) in Ht. done.
Qed.

(** X13. Derivations compose on the expected alphabet: tagging twice
    gives the scope that tagging once with the merged tags gives, and
    [SubScope] then [Tagged] gives the scope that [Tagged] then
    [SubScope] gives. *)
Theorem derivations_compose (w : world) (s : nat) (name : string)
    (t1 t2 : gmap string string) :
  reachable map_range w → all_tags_ok w → tags_ok t1 → tags_ok t2 →
  s < length (heap w) →
  (let r1 := Tagged s t1 w in
   let r2 := Tagged r1.1 t2 r1.2 in
   Tagged s (t2 ∪ t1) r2.2 = (r2.1, r2.2)) ∧
  (let r1 := SubScope s name w in
   let r2 := Tagged r1.1 t1 r1.2 in
   let r3 := Tagged s t1 r2.2 in
   SubScope r3.1 name r3.2 = (r2.1, r3.2)).
Proof.
  intros Hr Hok Ht1 Ht2 Hs.
  pose proof (reachable_wf map_range w Hr) as Hw.
  pose proof (reachable_tree_inv w Hr) as T.
  split.
  - intros r1 r2. unfold Tagged in *.
    destruct (subscope_good s (prefix (heap w !!! s)) (copyMap t1) w Hw T Hok)
      as ((Hw1 & T1 & Hok1) & P1 & Hlt1 & Hp1 & Htg1 & _);
      [by rewrite copyMap_id|done|]. fold r1 in Hw1, T1, Hok1, P1, Hlt1, Hp1, Htg1.
    destruct (subscope_good r1.1 (prefix (heap r1.2 !!! r1.1)) (copyMap t2) r1.2
                Hw1 T1 Hok1)
      as ((Hw2 & T2 & Hok2) & P2 & Hlt2 & Hp2 & Htg2 & Hk2);
      [by rewrite copyMap_id|done|]. fold r2 in Hw2, T2, Hok2, P2, Hlt2, Hp2, Htg2, Hk2.
    assert (P : persist w r2.2) by (by eapply persist_trans).
    destruct (persist_fields w r2.2 s P Hs) as (Ep & Et & _ & _).
    apply subscope_hit. rewrite mergeRightTags_eq, Ep, Et, !copyMap_id.
    rewrite Hp1, Htg1, !copyMap_id in Hk2.
    by rewrite <- (assoc_L (∪)).
  - intros r1 r2 r3. unfold Tagged, SubScope in *.
    destruct (subscope_good s (fullyQualifiedName (heap w !!! s) name) ∅ w Hw T Hok)
      as ((Hw1 & T1 & Hok1) & P1 & Hlt1 & Hp1 & Htg1 & _); [done|done|].
    fold r1 in Hw1, T1, Hok1, P1, Hlt1, Hp1, Htg1.
    rewrite (left_id_L ∅ (∪)) in Htg1.
    destruct (subscope_good r1.1 (prefix (heap r1.2 !!! r1.1)) (copyMap t1) r1.2
                Hw1 T1 Hok1)
      as ((Hw2 & T2 & Hok2) & P2 & Hlt2 & Hp2 & Htg2 & Hk2);
      [by rewrite copyMap_id|done|]. fold r2 in Hw2, T2, Hok2, P2, Hlt2, Hp2, Htg2, Hk2.
    assert (P02 : persist w r2.2) by (by eapply persist_trans).
    assert (Hs2 : s < length (heap r2.2)) by (pose proof (p_len _ _ P02); lia).
    destruct (subscope_good s (prefix (heap r2.2 !!! s)) (copyMap t1) r2.2
                Hw2 T2 Hok2)
      as ((Hw3 & T3 & Hok3) & P3 & Hlt3 & Hp3 & Htg3 & _);
      [by rewrite copyMap_id|done|]. fold r3 in Hw3, T3, Hok3, P3, Hlt3, Hp3, Htg3.
    destruct (persist_fields w r2.2 s P02 Hs) as (Ep & Et & Es & _).
    assert (P03 : persist w r3.2) by (by eapply persist_trans).
    destruct (persist_fields w r3.2 root P03 (wf_root w Hw)) as (_ & _ & Er & _).
    destruct (ti_shared r3.2 T3 r3.1 Hlt3) as [S3 _].
    destruct (ti_shared w T s Hs) as [S0 _].
    apply subscope_hit. rewrite mergeRightTags_eq, (left_id_L ∅ (∪)).
    rewrite Htg3, Et, !copyMap_id.
    assert (F : fullyQualifiedName (heap r3.2 !!! r3.1) name
                = fullyQualifiedName (heap w !!! s) name).
    { unfold fullyQualifiedName. rewrite Hp3, Ep, S3, Er, S0. done. }
    rewrite F. apply (p_registry _ _ P3).
    rewrite Hp1, Htg1, !copyMap_id in Hk2. done.
Qed.

Lemma fold_insert_other {A} (f : A → A) (l : list (string * A))
    (m0 : gmap string A) (i : string) :
  i ∉ l.*1 →
  foldl (fun m entry => <[entry.1 := f entry.2]> m) m0 l !! i = m0 !! i.
Proof.
  revert m0. induction l as [|e l IH]; intros m0 Hi; simpl; [done|].
  rewrite fmap_cons, not_elem_of_cons in Hi. destruct Hi as [Hne Hi].
  rewrite IH by done. by apply lookup_insert_ne.
Qed.

Lemma fold_insert_entry {A} (f : A → A) (l : list (string * A))
    (m0 : gmap string A) (i : string) (x : A) :
  NoDup l.*1 → (i, x) ∈ l →
  foldl (fun m entry => <[entry.1 := f entry.2]> m) m0 l !! i = Some (f x).
Proof.
  revert m0. induction l as [|e l IH]; intros m0 Hnd Hin; simpl.
  - by apply elem_of_nil in Hin.
  - rewrite fmap_cons in Hnd. apply NoDup_cons in Hnd as [Hfresh Hnd].
    apply elem_of_cons in Hin as [<-|Hin].
    + simpl in *. rewrite fold_insert_other by done. apply lookup_insert_eq.
    + by apply IH.
Qed.

Lemma fold_insert_fmap {A} (f : A → A) (m : gmap string A)
    (l : list (string * A)) :
  l ≡ₚ map_to_list m →
  foldl (fun m entry => <[entry.1 := f entry.2]> m) m l = f <$> m.
Proof.
  intros Hp. apply map_eq. intros i. rewrite lookup_fmap.
  assert (Hnd : NoDup l.*1) by (rewrite Hp; apply NoDup_fst_map_to_list).
  destruct (m !! i) as [x|] eqn:E; simpl.
  - apply fold_insert_entry; [done|]. rewrite Hp. by apply elem_of_map_to_list.
  - rewrite fold_insert_other; [done|].
    intros ([k x] & -> & Hin)%list_elem_of_fmap. simpl in E.
    rewrite Hp in Hin. apply elem_of_map_to_list in Hin. congruence.
Qed.

Hypothesis map_range_perm :
  ∀ (A : Type) (m : gmap string A), map_range A m ≡ₚ map_to_list m.

Lemma report_eq ss r w :
  report map_range ss r w =
    emit (omap (counter_call (heap w !!! ss)) (map_range _ (counters (heap w !!! ss)))
          ++ omap (gauge_call (heap w !!! ss)) (map_range _ (gauges (heap w !!! ss)))
          ++ [Flush])
         (store ss (consumed (heap w !!! ss)) w).
Proof.
  unfold report, report_counters, report_gauges.
  rewrite report_counters_fold, report_gauges_fold. simpl.
  by rewrite !fold_insert_fmap by apply map_range_perm.
Qed.

(** X14. [scope.report] forwards one [ReportCounter] call for every
    counter of the scope whose delta is not zero, under the fully
    qualified name and with the tags of the scope, then one [ReportGauge]
    call for every dirty gauge, then one [Flush]; nothing else. *)
Theorem report_forwards (ss : nat) (r : StatsReporter) (w : world) :
  ∃ out_c out_g,
    calls (report map_range ss r w) = calls w ++ out_c ++ out_g ++ [Flush] ∧
    out_c ≡ₚ omap (counter_call (heap w !!! ss))
                  (map_to_list (counters (heap w !!! ss))) ∧
    out_g ≡ₚ omap (gauge_call (heap w !!! ss))
                  (map_to_list (gauges (heap w !!! ss))).
Proof.
  rewrite report_eq. eexists _, _. split; [done|].
  by rewrite !map_range_perm.
Qed.


(** *** What a pass leaves behind *)

Lemma consumed_idemp sc : consumed (consumed sc) = consumed sc.
Proof.
  unfold consumed, set_gauges, set_counters. simpl. f_equal.
  - rewrite <- map_fmap_compose. by apply map_fmap_ext.
  - rewrite <- map_fmap_compose. by apply map_fmap_ext.
Qed.

Lemma consumed_settled sc : settled (consumed sc).
Proof.
  split; simpl.
  - intros name c (c0 & <- & _)%lookup_fmap_Some. done.
  - intros name g (g0 & <- & _)%lookup_fmap_Some. done.
Qed.

Lemma settled_quiet sc :
  settled sc →
  omap (counter_call sc) (map_range _ (counters sc)) = [] ∧
  omap (gauge_call sc) (map_range _ (gauges sc)) = [].
Proof.
  intros [Hc Hg]. split.
  - assert (F : Forall (fun e => counter_call sc e = None)
                       (map_range _ (counters sc))).
    { rewrite map_range_perm. apply Forall_forall.
      intros [name c] Hin%elem_of_map_to_list. unfold counter_call. simpl.
      rewrite (Hc _ _ Hin). unfold Int64.sub64. by rewrite Z.sub_diag. }
    induction F as [|e l He _ IH]; simpl; [done|]. by rewrite He.
  - assert (F : Forall (fun e => gauge_call sc e = None)
                       (map_range _ (gauges sc))).
    { rewrite map_range_perm. apply Forall_forall.
      intros [name g] Hin%elem_of_map_to_list. unfold gauge_call. simpl.
      pose proof (Hg _ _ Hin). by destruct (Z.eqb_spec (Gauge.updated g) 1). }
    induction F as [|e l He _ IH]; simpl; [done|]. by rewrite He.
Qed.

Lemma pass_heap r (l : list (string * nat)) w :
  Forall (fun e => e.2 < length (heap w)) l →
  let w' := foldl (fun w entry => report map_range entry.2 r w) w l in
  length (heap w') = length (heap w) ∧
  subscopes w' = subscopes w ∧
  ∀ p, heap w' !!! p =
       if decide (p ∈ l.*2) then consumed (heap w !!! p) else heap w !!! p.
Proof.
  revert w. induction l as [|e l IH]; intros w Hl; cbn [foldl].
  - split_and!; [done..|]. intros p. rewrite decide_False; [done|].
    apply not_elem_of_nil.
  - apply Forall_cons in Hl as [He Hl].
    set (w1 := report map_range e.2 r w).
    assert (L1 : length (heap w1) = length (heap w)).
    { unfold w1. rewrite report_eq. simpl. apply length_insert. }
    assert (H1 : ∀ p, heap w1 !!! p =
               if decide (p = e.2) then consumed (heap w !!! p) else heap w !!! p).
    { intros p. unfold w1. rewrite report_eq. simpl.
      rewrite list_lookup_total_insert.
      destruct (decide (p = e.2)) as [->|Hne].
      - by rewrite decide_True.
      - rewrite decide_False; [done|]. intros [? _]. by apply Hne. }
    destruct (IH w1) as (L & R & H); [by rewrite L1|].
    split_and!; [congruence| |].
    + rewrite R. unfold w1. by rewrite report_eq.
    + intros p. rewrite H, H1, fmap_cons.
      destruct (decide (p = e.2)) as [->|Hne].
      * rewrite (decide_True (P := e.2 ∈ e.2 :: l.*2)) by apply list_elem_of_here.
        case_decide; by rewrite ?consumed_idemp.
      * destruct (decide (p ∈ l.*2)) as [Hin|Hin].
        -- rewrite decide_True; [done|]. by apply list_elem_of_further.
        -- rewrite decide_False; [done|].
           intros [?|?]%elem_of_cons; done.
Qed.

Lemma registry_range w :
  wf w →
  Forall (fun e => e.2 < length (heap w)) (map_range _ (subscopes w)) ∧
  ∀ p, p < length (heap w) → p ∈ (map_range _ (subscopes w)).*2.
Proof.
  intros Hw. split.
  - rewrite map_range_perm. apply Forall_forall.
    intros [key p] Hin%elem_of_map_to_list. by apply (wf_registry w Hw key).
  - intros p Hp. rewrite map_range_perm. apply list_elem_of_fmap.
    exists (key_of (heap w !!! p), p). split; [done|].
    apply elem_of_map_to_list. by apply (wf_registered w Hw).
Qed.

Lemma pass_consumes (s : nat) (r : StatsReporter) (w : world) :
  wf w → reporter (heap w !!! s) = Some r →
  heap (reportRegistryWithLock map_range s w) = consumed <$> heap w ∧
  subscopes (reportRegistryWithLock map_range s w) = subscopes w.
Proof.
  intros Hw Hr. unfold reportRegistryWithLock. rewrite Hr.
  destruct (registry_range w Hw) as [Hl Hall].
  destruct (pass_heap r _ w Hl) as (L & R & H).
  split; [|done]. apply list_eq. intros p. rewrite list_lookup_fmap.
  destruct (decide (p < length (heap w))) as [Hp|Hp].
  - rewrite !list_lookup_lookup_total_lt by lia. simpl. f_equal.
    rewrite H. by rewrite decide_True by by apply Hall.
  - rewrite !lookup_ge_None_2 by lia. done.
Qed.

(** X15. A flush pass on a tree with a reporter consumes every counter
    and every gauge of every scope of the tree: afterwards the baseline
    of each counter is its running total, which the pass does not
    change, and each gauge is clean with its value kept. It creates no
    scope, no metric and no registry entry. *)
Theorem pass_consumes_all (s : nat) (r : StatsReporter) (w : world) :
  reachable map_range w → reporter (heap w !!! s) = Some r →
  heap (reportRegistryWithLock map_range s w) = consumed <$> heap w ∧
  subscopes (reportRegistryWithLock map_range s w) = subscopes w.
Proof. intros Hw%reachable_wf Hr. by apply (pass_consumes s r). Qed.

Lemma pass_settled r (l : list (string * nat)) w :
  (∀ p, settled (heap w !!! p)) →
  calls (foldl (fun w entry => report map_range entry.2 r w) w l)
    = calls w ++ replicate (length l) Flush.
Proof.
  revert w. induction l as [|e l IH]; intros w Hs; simpl.
  - by rewrite app_nil_r.
  - rewrite IH.
    + rewrite report_eq. simpl.
      destruct (settled_quiet (heap w !!! e.2) (Hs e.2)) as [-> ->].
      simpl. by rewrite <- app_assoc.
    + intros p. rewrite report_eq. simpl. rewrite list_lookup_total_insert.
      case_decide; [apply consumed_settled|apply Hs].
Qed.

(** X16. A flush pass that follows another with no [Inc] and no
    [Update] in between forwards no metric: the reporter receives one
    [Flush] per scope of the registry and nothing else. *)
Theorem second_pass_only_flushes (s : nat) (r : StatsReporter) (w : world) :
  reachable map_range w → reporter (heap w !!! s) = Some r →
  let w1 := reportRegistryWithLock map_range s w in
  calls (reportRegistryWithLock map_range s w1)
    = calls w1 ++ replicate (size (subscopes w)) Flush.
Proof.
  intros Hw%reachable_wf Hr w1.
  destruct (pass_consumes s r w Hw Hr) as [Hh Hs]. fold w1 in Hh, Hs.
  assert (Hr1 : reporter (heap w1 !!! s) = Some r).
  { pose proof (touch_reportRegistryWithLock map_range s w) as T. fold w1 in T.
    destruct (ident_fields _ _ (t_ident _ _ T s)) as (_ & _ & _ & ->). done. }
  unfold reportRegistryWithLock at 1. rewrite Hr1.
  rewrite pass_settled.
  - by rewrite map_range_perm, length_map_to_list, Hs.
  - intros p. rewrite Hh. destruct (decide (p < length (heap w))) as [Hp|Hp].
    + rewrite list_lookup_total_alt, list_lookup_fmap,
        (list_lookup_lookup_total_lt (heap w) p) by done.
      apply consumed_settled.
    + rewrite list_lookup_total_alt, lookup_ge_None_2
        by (rewrite length_fmap; lia).
      split; intros name x Hx; by vm_compute in Hx.
Qed.

(** *** Snapshots *)

Lemma foldl_inv {A B} (P : A → Prop) (f : A → B → A) (l : list B) (a : A) :
  P a → (∀ a b, P a → b ∈ l → P (f a b)) → P (foldl f a l).
Proof.
  revert a. induction l as [|b l IH]; intros a Ha Hf; simpl; [done|].
  apply IH.
  - apply Hf; [done|left].
  - intros a' b' ? ?. apply Hf; [done|by right].
Qed.

Lemma foldl_reach {A B} (R : A → Prop) (f : A → B → A) (l : list B) (a : A) (e : B) :
  e ∈ l → (∀ a, R (f a e)) → (∀ a b, R a → R (f a b)) → R (foldl f a l).
Proof.
  intros (l1 & l2 & ->)%list_elem_of_split He Hf.
  rewrite foldl_app. simpl. apply foldl_inv; [apply He|]. intros; by apply Hf.
Qed.

Lemma range_lookup {A} (m : gmap string A) (e : string * A) :
  e ∈ map_range A m ↔ m !! e.1 = Some e.2.
Proof. rewrite map_range_perm. destruct e. apply elem_of_map_to_list. Qed.

(** X17. A snapshot describes the tree as it is: every entry is a
    counter or gauge of a registered scope, with the fully qualified
    name and the tags of that scope, the delta not yet consumed or the
    current value, under the key made of that name and those tags; and
    the key of every counter and of every gauge of a registered scope
    has an entry. *)
Theorem Snapshot_describes_tree (s : nat) (w : world) :
  let snap := Snapshot map_range s w in
  (∀ id cs, snap_counters snap !! id = Some cs → counter_entry w id cs) ∧
  (∀ id gs, snap_gauges snap !! id = Some gs → gauge_entry w id gs) ∧
  (∀ key p name c,
     subscopes w !! key = Some p → counters (heap w !!! p) !! name = Some c →
     is_Some (snap_counters snap
                !! KeyMap_spec (fullyQualifiedName (heap w !!! p) name)
                               (tags (heap w !!! p)))) ∧
  (∀ key p name g,
     subscopes w !! key = Some p → gauges (heap w !!! p) !! name = Some g →
     is_Some (snap_gauges snap
                !! KeyMap_spec (fullyQualifiedName (heap w !!! p) name)
                               (tags (heap w !!! p)))).
Proof.
  intros snap. unfold snap, Snapshot. split_and!.
  - apply (foldl_inv (fun snap => ∀ id cs,
             snap_counters snap !! id = Some cs → counter_entry w id cs)).
    { intros id cs. simpl. by rewrite lookup_empty. }
    intros a [key p] Ha Hin%range_lookup. cbn [snap_counters].
    apply (foldl_inv (fun m => ∀ id cs, m !! id = Some cs → counter_entry w id cs));
      [done|].
    intros m [name c] Hm Hc%range_lookup id cs.
    rewrite lookup_insert_Some. intros [[<- <-]|[_ ?]]; [|by apply Hm].
    exists key, p, name, c. simpl in *. by rewrite copyMap_id.
  - apply (foldl_inv (fun snap => ∀ id gs,
             snap_gauges snap !! id = Some gs → gauge_entry w id gs)).
    { intros id gs. simpl. by rewrite lookup_empty. }
    intros a [key p] Ha Hin%range_lookup. cbn [snap_gauges].
    apply (foldl_inv (fun m => ∀ id gs, m !! id = Some gs → gauge_entry w id gs));
      [done|].
    intros m [name g] Hm Hg%range_lookup id gs.
    rewrite lookup_insert_Some. intros [[<- <-]|[_ ?]]; [|by apply Hm].
    exists key, p, name, g. simpl in *. by rewrite copyMap_id.
  - intros key p name c Hk Hc.
    apply (foldl_reach (fun snap => is_Some (snap_counters snap !! _)) _ _ _ (key, p)).
    + by apply range_lookup.
    + intros a. cbn [snap_counters]. simpl.
      apply (foldl_reach (fun m => is_Some (m !! _)) _ _ _ (name, c)).
      * by apply range_lookup.
      * intros m. simpl. rewrite copyMap_id, lookup_insert_eq. by eexists.
      * intros m e Hm. rewrite lookup_insert_is_Some. 
        destruct (decide (KeyMap_spec (fullyQualifiedName (heap w !!! p) e.1)
                            (copyMap (tags (heap w !!! p)))
                          = KeyMap_spec (fullyQualifiedName (heap w !!! p) name)
                              (tags (heap w !!! p)))); [by left|by right].
    + intros a e Ha. cbn [snap_counters].
      apply foldl_inv; [done|]. intros m e' Hm _.
      rewrite lookup_insert_is_Some.
      match goal with |- ?x = ?y ∨ _ => destruct (decide (x = y)) end;
        [by left|by right].
  - intros key p name g Hk Hg.
    apply (foldl_reach (fun snap => is_Some (snap_gauges snap !! _)) _ _ _ (key, p)).
    + by apply range_lookup.
    + intros a. cbn [snap_gauges]. simpl.
      apply (foldl_reach (fun m => is_Some (m !! _)) _ _ _ (name, g)).
      * by apply range_lookup.
      * intros m. simpl. rewrite copyMap_id, lookup_insert_eq. by eexists.
      * intros m e Hm. rewrite lookup_insert_is_Some.
        match goal with |- ?x = ?y ∨ _ => destruct (decide (x = y)) end;
          [by left|by right].
    + intros a e Ha. cbn [snap_gauges].
      apply foldl_inv; [done|]. intros m e' Hm _.
      rewrite lookup_insert_is_Some.
      match goal with |- ?x = ?y ∨ _ => destruct (decide (x = y)) end;
        [by left|by right].
Qed.

End scope_more.

(** ** The in-memory store *)

Section store.
Import Int64 Store.

Lemma deltas_of_app id us1 us2 :
  deltas_of id (us1 ++ us2) = (deltas_of id us1 ++ deltas_of id us2)%list.
Proof. apply omap_app. Qed.

Lemma values_of_app id us1 us2 :
  values_of id (us1 ++ us2) = (values_of id us1 ++ values_of id us2)%list.
Proof. apply omap_app. Qed.

Lemma store_run_snoc us u f : run (us ++ [u]) f = apply (run us f) u.
Proof. unfold run. by rewrite fold_left_app. Qed.

Lemma sumZ_app l1 l2 : sumZ (l1 ++ l2) = sumZ l1 + sumZ l2.
Proof. induction l1 as [|x l1 IH]; simpl; [done|]. rewrite IH. lia. Qed.

(** X18. The store accumulates: after any run of updates the counter
    [id] holds its earlier value plus the deltas sent to it, as an
    [int64], and updates of gauges and of other counters do not change
    it. It exists if it existed before or got a delta. *)
Theorem store_counter_accumulates (us : list update) (id : string) (f : FDB) :
  in_int64 (Counter id f).1 →
  (Counter id (run us f)).1 = wrap64 ((Counter id f).1 + sumZ (deltas_of id us)) ∧
  (Counter id (run us f)).2 =
    (Counter id f).2 || match deltas_of id us with [] => false | _ => true end.
Proof.
  intros Hr. induction us as [|u us IH] using rev_ind.
  - simpl. rewrite Z.add_0_r, wrap64_id by done. by rewrite orb_false_r.
  - rewrite store_run_snoc, deltas_of_app, sumZ_app. destruct IH as [IH1 IH2].
    unfold Counter in *.
    destruct u as [now id' delta|now id' value]; simpl.
    + destruct (decide (id' = id)) as [->|Hne]; simpl.
      * rewrite lookup_insert_eq. simpl. split.
        -- unfold add64.
           replace (default 0 (counters (run us f) !! id))
             with (match counters (run us f) !! id with
                   | Some v => (v, true) | None => (0, false) end).1
             by (by destruct (counters (run us f) !! id)).
           rewrite IH1, wrap64_add_l. f_equal. lia.
        -- destruct (counters f !! id); simpl; [done|].
           by destruct (deltas_of id us).
      * rewrite lookup_insert_ne by done. rewrite app_nil_r, Z.add_0_r. done.
    + rewrite app_nil_r, Z.add_0_r. done.
Qed.

(** X19. A gauge of the store holds the last value written to it; if a
    run writes none, it is as before. *)
Theorem store_gauge_last_write (us : list update) (id : string) (f : FDB) :
  Gauge id (run us f) =
    match last (values_of id us) with
    | Some v => (v, true)
    | None => Gauge id f
    end.
Proof.
  induction us as [|u us IH] using rev_ind; [done|].
  rewrite store_run_snoc, values_of_app. unfold Gauge in *.
  destruct u as [now id' delta|now id' value]; simpl.
  - by rewrite app_nil_r.
  - destruct (decide (id' = id)) as [->|Hne]; simpl.
    + by rewrite lookup_insert_eq, last_snoc.
    + rewrite lookup_insert_ne by done. by rewrite app_nil_r.
Qed.

(** X20. Every update, of a counter or of a gauge, counts once: after a
    run the update count is the earlier one plus the number of updates,
    as an [int], and it is the number the last update returned. *)
Theorem store_update_count (us : list update) (f : FDB) :
  in_int64 (UpdateCount f) →
  UpdateCount (run us f) = wrap64 (UpdateCount f + Z.of_nat (length us)) ∧
  ∀ now id v,
    (UpdateCounter now id v (run us f)).1
      = wrap64 (UpdateCount f + Z.of_nat (length us) + 1) ∧
    (UpdateGauge now id v (run us f)).1
      = wrap64 (UpdateCount f + Z.of_nat (length us) + 1).
Proof.
  intros Hr.
  assert (E : UpdateCount (run us f) = wrap64 (UpdateCount f + Z.of_nat (length us))).
  { induction us as [|u us IH] using rev_ind.
    - simpl. by rewrite Z.add_0_r, wrap64_id.
    - rewrite store_run_snoc, length_app. simpl. unfold UpdateCount in *.
      destruct u; simpl; rewrite IH, wrap64_add_l; f_equal; lia. }
  split; [done|]. intros now id v. unfold UpdateCount in *. simpl.
  rewrite E, wrap64_add_l. done.
Qed.

Lemma sort_keys {A} (m : gmap string A) (range_keys : list string) :
  range_keys ≡ₚ (map_to_list m).*1 →
  merge_sort String.le
    (fold_left (fun keys k => (keys ++ [k])%list) range_keys [])
  = merge_sort String.le (map_to_list m).*1.
Proof.
  intros Hp. rewrite append_range. simpl.
  apply (Sorted_unique String.le); try apply Sorted_merge_sort; try apply _.
  by rewrite !merge_sort_Permutation.
Qed.

Lemma visit_in_key_order {A} (d : A) (m : gmap string A) :
  in_key_order m
    ((fun k => (k, default d (m !! k))) <$>
       merge_sort String.le (map_to_list m).*1).
Proof.
  set (keys := merge_sort String.le (map_to_list m).*1).
  assert (Hk : keys ≡ₚ (map_to_list m).*1)
    by (unfold keys; by rewrite merge_sort_Permutation).
  assert (E : ((fun k => (k, default d (m !! k))) <$> keys).*1 = keys).
  { rewrite <- list_fmap_compose. apply list_fmap_id. }
  unfold in_key_order. rewrite E. split_and!.
  - apply StronglySorted_merge_sort; apply _.
  - rewrite Hk. apply NoDup_fst_map_to_list.
  - intros k v. rewrite list_elem_of_fmap. split.
    + intros (k' & [= -> ->] & Hin). rewrite Hk in Hin.
      apply list_elem_of_fmap in Hin as ([k'' v'] & -> & Hin).
      apply elem_of_map_to_list in Hin. simpl. by rewrite Hin.
    + intros Hm. exists k. split; [by rewrite Hm|].
      rewrite Hk. apply list_elem_of_fmap. exists (k, v).
      split; [done|]. by apply elem_of_map_to_list.
Qed.

Lemma fold_left_fmap {A B S} (g : A → B) (h : S → B → S) (l : list A) (st : S) :
  fold_left h (g <$> l) st = fold_left (fun st a => h st (g a)) l st.
Proof. revert st. induction l as [|a l IH]; intros st; simpl; [done|apply IH]. Qed.

(** X21. [MapOrderedCounter] and [MapOrderedGauge] visit every entry of
    their map once, in ascending key order, with the value stored; the
    visit is the same whatever the order in which [range] yielded the
    keys. *)
Theorem MapOrdered_in_key_order (rc rc' rg rg' : list string) (f : FDB) :
  rc ≡ₚ (map_to_list (counters f)).*1 → rc' ≡ₚ (map_to_list (counters f)).*1 →
  rg ≡ₚ (map_to_list (gauges f)).*1 → rg' ≡ₚ (map_to_list (gauges f)).*1 →
  ∃ lc lg,
    in_key_order (counters f) lc ∧ in_key_order (gauges f) lg ∧
    ∀ (S : Type) (fun_ : string → Z → S → S) (st : S),
      MapOrderedCounter rc fun_ f st
        = fold_left (fun st kv => fun_ kv.1 kv.2 st) lc st ∧
      MapOrderedCounter rc' fun_ f st
        = fold_left (fun st kv => fun_ kv.1 kv.2 st) lc st ∧
      MapOrderedGauge rg fun_ f st
        = fold_left (fun st kv => fun_ kv.1 kv.2 st) lg st ∧
      MapOrderedGauge rg' fun_ f st
        = fold_left (fun st kv => fun_ kv.1 kv.2 st) lg st.
Proof.
  intros Hc Hc' Hg Hg'. eexists _, _. split_and!.
  - apply (visit_in_key_order 0 (counters f)).
  - apply (visit_in_key_order 0 (gauges f)).
  - intros S fun_ st. unfold MapOrderedCounter, MapOrderedGauge.
    rewrite !fold_left_fmap.
    by rewrite (sort_keys (counters f) rc Hc), (sort_keys (counters f) rc' Hc'),
      (sort_keys (gauges f) rg Hg), (sort_keys (gauges f) rg' Hg').
Qed.

End store.

(** ** The further statements at concrete inputs *)

Section more_instances.
Import Int64 Counter Keymap Scope StatsMore ScopeMore.
Local Open Scope string_scope.

Lemma keyDB_bounded : pool_bounded keyDB.
Proof. split; unfold db_bounded; simpl; lia. Qed.

Lemma two_scopes_length : (0 < 1 < length (heap two_scopes))%nat.
Proof. vm_compute. lia. Qed.

Lemma two_scopes_tags_ok : all_tags_ok two_scopes.
Proof.
  intros p Hp. change (length (heap two_scopes)) with 2%nat in Hp.
  destruct p as [|[|p]]; [| |lia];
    apply (bool_decide_unpack _); vm_compute; exact I.
Qed.

Lemma Incs_permutation_witness :
  [1; 2] ≡ₚ [2; 1] ∧ Incs [1; 2] newCounter = Incs [2; 1] newCounter.
Proof.
  assert (H : [1; 2] ≡ₚ [2; 1]) by apply perm_swap.
  exact (conj H (Incs_permutation [1; 2] [2; 1] newCounter H)).
Defined.

Lemma KeyMap_no_tags_witness :
  pool_ok keyDB ∧ fst <$> KeyMap "p" ∅ [] keyDB = Some "p+".
Proof. exact (conj keyDB_ok (KeyMap_no_tags "p" keyDB keyDB_ok)). Defined.

Lemma KeyMap_collision_witness :
  "p" ≠ "" ∧ pool_ok keyDB ∧
  ("p+q", ({[ "k" := "v" ]} : gmap string string)) ≠ ("p", {[ "q+k" := "v" ]}) ∧
  ∃ key,
    fst <$> KeyMap "p+q" {[ "k" := "v" ]} ["k"] keyDB = Some key ∧
    fst <$> KeyMap "p" {[ "q+k" := "v" ]} ["q+k"] keyDB = Some key.
Proof.
  assert (H : "p" ≠ "") by discriminate.
  exact (conj H (conj keyDB_ok
           (KeyMap_collision "p" "q" "k" "v" keyDB keyDB H keyDB_ok keyDB_ok))).
Defined.

Lemma KeyMap_recycles_witness :
  pool_ok keyDB ∧ range_of tags_ab ["b"; "a"] ∧ pool_bounded keyDB ∧
  ∃ key db',
    KeyMap "p" tags_ab ["b"; "a"] keyDB = Some (key, db') ∧
    pool_bounded db' ∧
    capacity (bufferDB db') = capacity (bufferDB keyDB) ∧
    capacity (stringsDB db') = capacity (stringsDB keyDB) ∧
    length (values (bufferDB db'))
      = recycled (length (values (bufferDB keyDB))) (capacity (bufferDB keyDB)) ∧
    length (values (stringsDB db'))
      = recycled (length (values (stringsDB keyDB))) (capacity (stringsDB keyDB)).
Proof.
  assert (H : range_of tags_ab ["b"; "a"]) by apply range_ab.
  exact (conj keyDB_ok (conj H (conj keyDB_bounded
           (KeyMap_recycles "p" tags_ab ["b"; "a"] keyDB keyDB_ok H keyDB_bounded)))).
Defined.

Lemma scopes_share_root_settings_witness :
  reachable (fun A => map_to_list) two_scopes ∧
  (1 < length (heap two_scopes))%nat ∧
  separator (heap two_scopes !!! 1%nat) = separator (heap two_scopes !!! root) ∧
  reporter (heap two_scopes !!! 1%nat) = reporter (heap two_scopes !!! root) ∧
  separator (heap two_scopes !!! 1%nat) ≠ "".
Proof.
  exact (conj two_scopes_reachable (conj (proj2 two_scopes_length)
           (scopes_share_root_settings (fun A => map_to_list) two_scopes 1
              two_scopes_reachable (proj2 two_scopes_length)))).
Defined.


Lemma Report_derived_not_gated_witness :
  reachable (fun A => map_to_list) two_scopes ∧
  (0 < 1 < length (heap two_scopes))%nat ∧
  closed (status (heap two_scopes !!! 1%nat)) = false ∧
  Report (fun A => map_to_list) 1 two_scopes
    = reportRegistryWithLock (fun A => map_to_list) 1 two_scopes.
Proof.
  exact (conj two_scopes_reachable (conj two_scopes_length
           (Report_derived_not_gated (fun A => map_to_list) two_scopes 1
              two_scopes_reachable two_scopes_length))).
Defined.

Lemma reporter_closed_at_most_once_witness :
  reachable (fun A => map_to_list) two_scopes ∧
  (closes (calls two_scopes) ≤ 1)%nat ∧
  (closed (status (heap two_scopes !!! root)) = false →
   closes (calls two_scopes) = 0%nat).
Proof.
  exact (conj two_scopes_reachable
           (reporter_closed_at_most_once (fun A => map_to_list) two_scopes
              two_scopes_reachable)).
Defined.

Lemma derived_scope_identity_witness :
  reachable (fun A => map_to_list) two_scopes ∧ all_tags_ok two_scopes ∧
  tags_ok tags_ab ∧ (1 < length (heap two_scopes))%nat ∧
  (let r := Tagged 1 tags_ab two_scopes in
   prefix (heap r.2 !!! r.1) = prefix (heap two_scopes !!! 1%nat) ∧
   tags (heap r.2 !!! r.1) = tags_ab ∪ tags (heap two_scopes !!! 1%nat) ∧
   separator (heap r.2 !!! r.1) = separator (heap two_scopes !!! 1%nat) ∧
   reporter (heap r.2 !!! r.1) = reporter (heap two_scopes !!! 1%nat)) ∧
  (let r := SubScope 1 "x" two_scopes in
   prefix (heap r.2 !!! r.1) = fullyQualifiedName (heap two_scopes !!! 1%nat) "x" ∧
   tags (heap r.2 !!! r.1) = tags (heap two_scopes !!! 1%nat) ∧
   separator (heap r.2 !!! r.1) = separator (heap two_scopes !!! 1%nat) ∧
   reporter (heap r.2 !!! r.1) = reporter (heap two_scopes !!! 1%nat)).
Proof.
  assert (H : tags_ok tags_ab) by apply tags_ok_examples.
  exact (conj two_scopes_reachable (conj two_scopes_tags_ok (conj H
           (conj (proj2 two_scopes_length)
              (derived_scope_identity (fun A => map_to_list) two_scopes 1 "x"
                 tags_ab two_scopes_reachable two_scopes_tags_ok H
                 (proj2 two_scopes_length)))))).
Defined.

Lemma derivations_compose_witness :
  reachable (fun A => map_to_list) two_scopes ∧ all_tags_ok two_scopes ∧
  tags_ok tags_a ∧ tags_ok tags_ab ∧ (0 < length (heap two_scopes))%nat ∧
  (let r1 := Tagged root tags_a two_scopes in
   let r2 := Tagged r1.1 tags_ab r1.2 in
   Tagged root (tags_ab ∪ tags_a) r2.2 = (r2.1, r2.2)) ∧
  (let r1 := SubScope root "x" two_scopes in
   let r2 := Tagged r1.1 tags_a r1.2 in
   let r3 := Tagged root tags_a r2.2 in
   SubScope r3.1 "x" r3.2 = (r2.1, r3.2)).
Proof.
  assert (H1 : tags_ok tags_a) by apply tags_ok_examples.
  assert (H2 : tags_ok tags_ab) by apply tags_ok_examples.
  assert (L : (0 < length (heap two_scopes))%nat) by (vm_compute; lia).
  exact (conj two_scopes_reachable (conj two_scopes_tags_ok (conj H1 (conj H2
           (conj L
              (derivations_compose (fun A => map_to_list) two_scopes root "x"
                 tags_a tags_ab two_scopes_reachable two_scopes_tags_ok H1 H2 L)))))).
Defined.

Lemma report_forwards_witness :
  (∀ (A : Type) (m : gmap string A), (fun A => map_to_list) A m ≡ₚ map_to_list m) ∧
  ∃ out_c out_g,
    calls (report (fun A => map_to_list) root (mkReporter None) three_polls)
      = (calls three_polls ++ out_c ++ out_g ++ [Flush])%list ∧
    out_c ≡ₚ omap (counter_call (heap three_polls !!! root))
                  (map_to_list (counters (heap three_polls !!! root))) ∧
    out_g ≡ₚ omap (gauge_call (heap three_polls !!! root))
                  (map_to_list (gauges (heap three_polls !!! root))).
Proof.
  exact (conj map_to_list_range
           (report_forwards (fun A => map_to_list) map_to_list_range root
              (mkReporter None) three_polls)).
Defined.

Lemma pass_consumes_all_witness :
  (∀ (A : Type) (m : gmap string A), (fun A => map_to_list) A m ≡ₚ map_to_list m) ∧
  reachable (fun A => map_to_list) two_scopes ∧
  reporter (heap two_scopes !!! root) = Some (mkReporter None) ∧
  heap (reportRegistryWithLock (fun A => map_to_list) root two_scopes)
    = consumed <$> heap two_scopes ∧
  subscopes (reportRegistryWithLock (fun A => map_to_list) root two_scopes)
    = subscopes two_scopes.
Proof.
  exact (conj map_to_list_range (conj two_scopes_reachable (conj eq_refl
           (pass_consumes_all (fun A => map_to_list) map_to_list_range root
              (mkReporter None) two_scopes two_scopes_reachable eq_refl)))).
Defined.

Lemma second_pass_only_flushes_witness :
  (∀ (A : Type) (m : gmap string A), (fun A => map_to_list) A m ≡ₚ map_to_list m) ∧
  reachable (fun A => map_to_list) two_scopes ∧
  reporter (heap two_scopes !!! root) = Some (mkReporter None) ∧
  (let w1 := reportRegistryWithLock (fun A => map_to_list) root two_scopes in
   calls (reportRegistryWithLock (fun A => map_to_list) root w1)
     = (calls w1 ++ replicate (size (subscopes two_scopes)) Flush)%list).
Proof.
  exact (conj map_to_list_range (conj two_scopes_reachable (conj eq_refl
           (second_pass_only_flushes (fun A => map_to_list) map_to_list_range root
              (mkReporter None) two_scopes two_scopes_reachable eq_refl)))).
Defined.

Lemma Snapshot_describes_tree_witness :
  (∀ (A : Type) (m : gmap string A), (fun A => map_to_list) A m ≡ₚ map_to_list m) ∧
  (∀ id cs,
     snap_counters (Snapshot (fun A => map_to_list) root three_polls) !! id = Some cs →
     counter_entry three_polls id cs).
Proof.
  exact (conj map_to_list_range
           (proj1 (Snapshot_describes_tree (fun A => map_to_list) map_to_list_range
                     root three_polls))).
Defined.

End more_instances.

Section store_instances.
Import Int64.

Lemma store_counter_accumulates_witness :
  in_int64 (Store.Counter "PollCount" Store.NewFDB).1 ∧
  (Store.Counter "PollCount"
     (Store.run [Store.UCounter 1 "PollCount" 5; Store.UGauge 2 "Alloc" 7;
                 Store.UCounter 3 "PollCount" 6] Store.NewFDB)).1
    = wrap64 ((Store.Counter "PollCount" Store.NewFDB).1
              + sumZ (Store.deltas_of "PollCount"
                        [Store.UCounter 1 "PollCount" 5; Store.UGauge 2 "Alloc" 7;
                         Store.UCounter 3 "PollCount" 6])).
Proof.
  assert (H : in_int64 (Store.Counter "PollCount" Store.NewFDB).1)
    by (vm_compute; split; [discriminate|reflexivity]).
  exact (conj H (proj1 (store_counter_accumulates
           [Store.UCounter 1 "PollCount" 5; Store.UGauge 2 "Alloc" 7;
            Store.UCounter 3 "PollCount" 6] "PollCount" Store.NewFDB H))).
Defined.

Lemma store_update_count_witness :
  in_int64 (Store.UpdateCount Store.NewFDB) ∧
  Store.UpdateCount
    (Store.run [Store.UCounter 1 "PollCount" 5; Store.UGauge 2 "Alloc" 7]
               Store.NewFDB)
    = wrap64 (Store.UpdateCount Store.NewFDB
              + Z.of_nat (length [Store.UCounter 1 "PollCount" 5;
                                  Store.UGauge 2 "Alloc" 7])).
Proof.
  assert (H : in_int64 (Store.UpdateCount Store.NewFDB))
    by (vm_compute; split; [discriminate|reflexivity]).
  exact (conj H (proj1 (store_update_count
           [Store.UCounter 1 "PollCount" 5; Store.UGauge 2 "Alloc" 7]
           Store.NewFDB H))).
Defined.

Lemma MapOrdered_in_key_order_witness :
  let f := Store.run [Store.UCounter 1 "b" 5; Store.UGauge 2 "y" 7;
                      Store.UCounter 3 "a" 6; Store.UGauge 4 "x" 8] Store.NewFDB in
  ["b"; "a"] ≡ₚ (map_to_list (Store.counters f)).*1 ∧
  ["a"; "b"] ≡ₚ (map_to_list (Store.counters f)).*1 ∧
  ["y"; "x"] ≡ₚ (map_to_list (Store.gauges f)).*1 ∧
  ["x"; "y"] ≡ₚ (map_to_list (Store.gauges f)).*1 ∧
  ∃ lc lg,
    Store.in_key_order (Store.counters f) lc ∧
    Store.in_key_order (Store.gauges f) lg ∧
    ∀ (S : Type) (fun_ : string → Z → S → S) (st : S),
      Store.MapOrderedCounter ["b"; "a"] fun_ f st
        = fold_left (fun st kv => fun_ kv.1 kv.2 st) lc st ∧
      Store.MapOrderedCounter ["a"; "b"] fun_ f st
        = fold_left (fun st kv => fun_ kv.1 kv.2 st) lc st ∧
      Store.MapOrderedGauge ["y"; "x"] fun_ f st
        = fold_left (fun st kv => fun_ kv.1 kv.2 st) lg st ∧
      Store.MapOrderedGauge ["x"; "y"] fun_ f st
        = fold_left (fun st kv => fun_ kv.1 kv.2 st) lg st.
Proof.
  intros f.
  assert (H1 : ["b"; "a"] ≡ₚ (map_to_list (Store.counters f)).*1)
    by (vm_compute; first [reflexivity|apply perm_swap]).
  assert (H2 : ["a"; "b"] ≡ₚ (map_to_list (Store.counters f)).*1)
    by (vm_compute; first [reflexivity|apply perm_swap]).
  assert (H3 : ["y"; "x"] ≡ₚ (map_to_list (Store.gauges f)).*1)
    by (vm_compute; first [reflexivity|apply perm_swap]).
  assert (H4 : ["x"; "y"] ≡ₚ (map_to_list (Store.gauges f)).*1)
    by (vm_compute; first [reflexivity|apply perm_swap]).
  exact (conj H1 (conj H2 (conj H3 (conj H4
           (MapOrdered_in_key_order ["b"; "a"] ["a"; "b"] ["y"; "x"] ["x"; "y"] f
              H1 H2 H3 H4))))).
Defined.

End store_instances.
